(** * arc: the camera render pipeline and the instance allocator

  A shallow embedding of [scene/camera.go] and [core/instance.go].
  Go's [int32] values are carried as [Z] with the wrap-around written
  out, Go maps as stdpp's [gmap], slices as lists, and the OpenGL
  context the camera drives as an explicit state record that every
  call transforms and in which every call is recorded. *)

From stdpp Require Import base gmap list strings.
From Stdlib Require Import ZArith Lia.

Local Open Scope Z_scope.

(** ** 32-bit signed integers *)

Module Int32.

Definition MaxInt32 : Z := 2147483647.
Definition MinInt32 : Z := -2147483648.

(** Two's-complement wrap-around of a mathematical integer. *)
Definition wrap (z : Z) : Z := (z + 2147483648) mod 4294967296 - 2147483648.

(** Go's [a + b] on [int32]. *)
Definition add (a b : Z) : Z := wrap (a + b).

(** Go's [a % b]: the remainder takes the sign of the dividend. *)
Definition rem (a b : Z) : Z := Z.rem a b.

Definition in_range (z : Z) : Prop := MinInt32 <= z <= MaxInt32.

End Int32.

(** ** core/instance.go: the instance system *)

Module Core.

(** An object registered with the instance system: what [Assign] and
    [nextID] read of the [Object] interface is its name and its ID. *)
Record Object := { objName : string; objID : Z }.

Definition SetID (id : Z) (o : Object) : Object :=
  {| objName := objName o; objID := id |}.

Inductive Error :=
| ErrMaxIDsExceeded
| ErrAssignNilObject
| ErrObjectAlreadyAssigned.

(** [InstanceSystem]; the mutex is left out, every method runs with it
    held from entry to return. *)
Record InstanceSystem := {
  objects : gmap Z Object;
  next : Z
}.

Definition NewInstanceSystem : InstanceSystem :=
  {| objects := ∅; next := 0 |}.

Definition has (s : InstanceSystem) (id : Z) : bool :=
  bool_decide (is_Some (objects s !! id)).

(** The result of running [nextID]: it returns an ID and the updated
    system, returns an error, or is still inside its [for] loop when
    the fuel is spent. *)
Inductive NextID :=
| Returned (id : Z) (s : InstanceSystem)
| Failed (e : Error)
| Spinning.

(** The loop [for ok { id := s.next + 1; _, ok = s.objects[id] }].
    The [id] declared in the body is a new variable of the body's
    block: the outer [id] keeps its value, and [s.next] is not
    assigned in the loop. *)
Fixpoint nextID_loop (fuel : nat) (s : InstanceSystem) (id : Z) (ok : bool)
  : option Z :=
  if ok then
    match fuel with
    | O => None
    | S fuel' =>
        let id_inner := Int32.add (next s) 1 in
        nextID_loop fuel' s id (has s id_inner)
    end
  else Some id.

Definition nextID (fuel : nat) (s : InstanceSystem) : NextID :=
  if bool_decide (Int32.MaxInt32 <= Z.of_nat (size (objects s))) then
    Failed ErrMaxIDsExceeded
  else
    let id := Int32.add (next s) 1 in
    match nextID_loop fuel s id (has s id) with
    | None => Spinning
    | Some id' => Returned id' {| objects := objects s; next := id' |}
    end.

(** The result of [Assign]. *)
Inductive Assigned :=
| AssignOk (o : Object) (s : InstanceSystem)
| AssignErr (e : Error)
| AssignSpinning.

Definition Assign (fuel : nat) (object : option Object) (s : InstanceSystem)
  : Assigned :=
  match object with
  | None => AssignErr ErrAssignNilObject
  | Some o =>
      if negb (objID o =? 0) then AssignErr ErrObjectAlreadyAssigned
      else
        match nextID fuel s with
        | Failed e => AssignErr e
        | Spinning => AssignSpinning
        | Returned id s' =>
            let o' := SetID id o in
            AssignOk o' {| objects := <[id := o']> (objects s'); next := next s' |}
        end
  end.

(** A system in which the candidate ID [next + 1] is taken: one object
    with ID 1, and [next] back at 0. *)
Definition taken_state : InstanceSystem :=
  {| objects := {[ 1 := {| objName := "camera"; objID := 1 |} ]}; next := 0 |}.

(** A system whose counter stands at -1. *)
Definition minus_one_state : InstanceSystem :=
  {| objects := ∅; next := -1 |}.

(** *** Lookup and release *)

(** The result of [Get]: the object, or [ErrIDNotFound(id)]. *)
Inductive GetResult :=
| Found (o : Object)
| ErrIDNotFound (id : Z).

Definition Get (id : Z) (s : InstanceSystem) : GetResult :=
  match objects s !! id with
  | Some o => Found o
  | None => ErrIDNotFound id
  end.

(** What a release loop does for one key, as seen from outside: it logs
    that the key is not in the table, or it deallocates and releases the
    object ([Dealloc], [Release]) and deletes the key. The table of the
    model holds no [nil] object: [Assign], the one method that stores,
    refuses [nil]. *)
Inductive ReleaseEvent :=
| NotFound (id : Z)
| Released (id : Z) (o : Object).

(** The body both release loops share, from the lookup on. *)
Definition releaseKey (acc : InstanceSystem * list ReleaseEvent) (v : Z)
  : InstanceSystem * list ReleaseEvent :=
  let '(s, log) := acc in
  match objects s !! v with
  | None => (s, log ++ [NotFound v])
  | Some o =>
      ({| objects := delete v (objects s); next := next s |},
       log ++ [Released v o])
  end.


(** [ReleaseAll]. Go leaves the order in which [range] visits a map
    open; [order] is the order of one run, every key of the table once
    (a key deleted by the body is the one being visited). *)
Definition ReleaseAll (order : list Z) (s : InstanceSystem)
  : InstanceSystem * list ReleaseEvent :=
  foldl releaseKey (s, []) order.

(** [order] is an order in which [range s.objects] can run. *)
Definition rangeOrder (order : list Z) (s : InstanceSystem) : Prop :=
  NoDup order /\ forall k, k ∈ order <-> is_Some (objects s !! k).

(** [Teardown]. *)
Definition Teardown (order : list Z) (s : InstanceSystem)
  : InstanceSystem * list ReleaseEvent :=
  ReleaseAll order s.

(** [MustAssign]: [Assign], with the error turned into a panic. *)
Inductive MustAssigned :=
| MustAssignOk (o : Object) (s : InstanceSystem)
| MustAssignPanic (e : Error)
| MustAssignSpinning.

Definition MustAssign (fuel : nat) (object : option Object) (s : InstanceSystem)
  : MustAssigned :=
  match Assign fuel object s with
  | AssignOk o s' => MustAssignOk o s'
  | AssignErr e => MustAssignPanic e
  | AssignSpinning => MustAssignSpinning
  end.

(** Assigning the objects of a list one after the other, as a caller
    does that checks each error: the objects with their IDs and the
    system after the last one, or nothing when one call fails or does
    not return. *)
Fixpoint assignAll (fuel : nat) (os : list Object) (s : InstanceSystem)
  : option (list Object * InstanceSystem) :=
  match os with
  | [] => Some ([], s)
  | o :: rest =>
      match Assign fuel (Some o) s with
      | AssignOk o' s' =>
          match assignAll fuel rest s' with
          | Some (os', s'') => Some (o' :: os', s'')
          | None => None
          end
      | _ => None
      end
  end.

(** The table of a system whose counter has not wrapped around: the IDs
    in use lie between 1 and [next], there are no more of them than
    [next], and each object carries the ID it is stored under. *)
Definition consistent (s : InstanceSystem) : Prop :=
  0 <= next s
  /\ Z.of_nat (size (objects s)) <= next s
  /\ forall id o, objects s !! id = Some o -> 1 <= id <= next s /\ objID o = id.

Definition fresh (name : string) : Object := {| objName := name; objID := 0 |}.

(** The IDs of the objects a release log reports as released, in order. *)
Definition releasedIDs (log : list ReleaseEvent) : list Z :=
  omap (fun e => match e with Released id _ => Some id | NotFound _ => None end)
       log.

(** One round of a release loop; [skipZero] tells the loop of [Release],
    which passes over the ID 0, from the loop of [ReleaseAll]. *)
Definition releaseStep (skipZero : bool)
  (acc : InstanceSystem * list ReleaseEvent) (v : Z)
  : InstanceSystem * list ReleaseEvent :=
  if skipZero && (v =? 0) then acc else releaseKey acc v.

(** The entry the loop of [ReleaseAll] logs for the key [k] of [s]. *)
Definition releasedFrom (s : InstanceSystem) (k : Z) : option ReleaseEvent :=
  Released k <$> objects s !! k.

End Core.

(** ** scene/camera.go: the camera *)

Module Scene.

(** *** Values *)

(** A [float32] is carried as its IEEE-754 bit pattern: the camera
    stores and forwards these values and computes nothing with them. *)
Definition float32 : Type := Z.
Definition f32_0 : float32 := 0.
Definition f32_1 : float32 := 1065353216.

(** [mgl32.Mat4]: sixteen [float32], column by column. *)
Definition Mat4 : Type := list float32.

(** [core.Color], as the four values [Elem()] returns. *)
Definition Color : Type := (float32 * float32 * float32 * float32)%type.

Inductive RenderPath := RenderPathForward | RenderPathDeferred.

Inductive CameraTexture :=
| CameraTextureLDR0
| CameraTextureLDR1
| CameraTextureHDR0
| CameraTextureHDR1
| CameraTextureDepth
| CameraTextureNormals.

Inductive CameraShader :=
| CameraShaderCopy
| CameraShaderDeferred
| CameraShaderNormals
| CameraShaderSkybox.

Inductive CameraMesh := CameraMeshEffect | CameraMeshGBuffer | CameraMeshSkybox.

Inductive ClearMode :=
| ClearModeSkybox
| ClearModeColor
| ClearModeDepth
| ClearModeNothing.

(** Modelled from the spec: the declaration of [EffectType] is in a file
    of the package that is not part of the sources at hand; these are
    the three constants [camera.go] compares against, "HDR, LDR, or
    Tonemapper (a one-time domain-converting stage)". *)
Inductive EffectType := EffectTypeHDR | EffectTypeLDR | EffectTypeTonemapper.

(** The framebuffer attachment points [camera.go] names. *)
Inductive Attachment :=
| COLOR_ATTACHMENT0
| COLOR_ATTACHMENT1
| COLOR_ATTACHMENT2
| COLOR_ATTACHMENT3
| COLOR_ATTACHMENT4
| DEPTH_ATTACHMENT.

#[global] Instance RenderPath_eq_dec : EqDecision RenderPath.
Proof. solve_decision. Defined.
#[global] Instance CameraTexture_eq_dec : EqDecision CameraTexture.
Proof. solve_decision. Defined.
#[global] Instance CameraShader_eq_dec : EqDecision CameraShader.
Proof. solve_decision. Defined.
#[global] Instance ClearMode_eq_dec : EqDecision ClearMode.
Proof. solve_decision. Defined.
#[global] Instance EffectType_eq_dec : EqDecision EffectType.
Proof. solve_decision. Defined.
#[global] Instance Attachment_eq_dec : EqDecision Attachment.
Proof. solve_decision. Defined.

(** *** The OpenGL context *)

(** A texture that can be made active on a texture unit: one of the
    camera's own, or a cubemap of the environment's skybox. *)
Inductive Texture :=
| CameraTex (t : CameraTexture)
| Cubemap (handle : nat).

(** A shader program that can be bound: one of the camera's own, or the
    one an effect binds for its [pass]-th sub-pass. *)
Inductive Program :=
| CameraProgram (s : CameraShader)
| EffectProgram (effect pass : nat).

#[global] Instance Texture_eq_dec : EqDecision Texture.
Proof. solve_decision. Defined.
#[global] Instance Program_eq_dec : EqDecision Program.
Proof. solve_decision. Defined.

(** What a texture holds, symbolically: every full-screen pass wraps
    the image it sampled in the program that shaded it. *)
Inductive Image :=
| Initial (t : CameraTexture)
| ClearedTo (c : Color)
| ClearedDepth
| CubemapData (handle : nat)
| NothingBound
| Shaded (p : option Program) (src : Image)
| SkyboxView (cube : Image) (view projection : option Mat4).

(** The calls the camera makes on the graphics layer, as written. *)
Inductive GLCall :=
| ClearColor (c : Color)
| ClearBuffers
| ClearBufferFlags (mask : Z)
| ApplyDrawBuffers (bufs : list Attachment)
| ActivateTexture (t : Texture) (unit : Z)
| MeshBind (m : CameraMesh)
| MeshDraw (m : CameraMesh)
| MeshUnbind (m : CameraMesh)
| ShaderBind (p : Program)
| ShaderUnbind (p : Program)
| SetSubroutine (p : Program) (name : string)
| SetUniform (p : Program) (name : string) (value : Mat4)
| DepthMask (flag : bool)
| Enable (cap : Z)
| Disable (cap : Z)
| FramebufferBind
| UnbindCurrentFramebuffer
| BlitFramebuffers (a : Attachment).

Definition DEPTH_BUFFER_BIT : Z := 256.
Definition DEPTH_TEST : Z := 2929.
Definition TEXTURE0 : Z := 33984.

(** One draw of a full-screen mesh: the program that shaded it, the
    texture it sampled on unit 0, and the textures it wrote (those
    attached at the selected draw buffers). *)
Record Draw := {
  drawProgram : option Program;
  drawRead : option Texture;
  drawSlots : list Attachment;
  drawWritten : list CameraTexture
}.

Record GL := {
  boundTexture : option Texture;
  drawBuffers : list Attachment;
  program : option Program;
  uniforms : list (string * Mat4);
  glClearColor : Color;
  depthMask : bool;
  depthTest : bool;
  pixels : CameraTexture -> Image;
  draws : list Draw;
  calls : list GLCall
}.

(** *** The camera *)

(** Modelled from the spec: the [Effect] interface is declared in a file
    that is not part of the sources at hand. An effect has a type and a
    [Render] operation that "may call the sub-pass operation any number
    of times (zero or more)", each time with a shader of its own bound. *)
Record Effect := {
  effectID : nat;
  effectType : EffectType;
  effectSubPasses : nat
}.

(** A scene component; [isDrawable] is the outcome of the type
    assertion [components[i].(Drawable)]. *)
Record Component := {
  componentID : nat;
  isDrawable : bool;
  SupportsDeferred : bool
}.

#[global] Instance Component_eq_dec : EqDecision Component.
Proof. solve_decision. Defined.

(** The environment's skybox asset. *)
Record Skybox := { Specular : nat; Irradiance : nat }.

Definition Attachments : Type := Attachment -> option CameraTexture.

Record Framebuffer := { fbAttachments : Attachments }.

Record GBuffer := { gbDepth : option CameraTexture; gbHDR : bool }.

(** [Camera]. The three maps are carried by their key sets, their values
    being handles of the graphics layer; [skybox] stands for what
    [c.GameObject().Environment().Skybox] yields ([None] for [nil]). The
    matrices and clip values that no method modelled here reads other
    than to forward them are the two matrix fields. *)
Record Camera := {
  textures : list CameraTexture;
  shaders : list CameraShader;
  meshes : list CameraMesh;
  effects : list Effect;
  deferredCache : list Component;
  forwardCache : list Component;
  framebuffer : option Framebuffer;
  gbuffer : option GBuffer;
  projectionMatrix : Mat4;
  viewMatrix : Mat4;
  clearColor : Color;
  clearMode : ClearMode;
  renderPath : RenderPath;
  effectPass : Z;
  effectActiveType : EffectType;
  hdr : bool;
  skybox : option Skybox
}.

Record World := { cam : Camera; gl : GL }.

(** *** State updates *)

Definition withGL (f : GL -> GL) (w : World) : World :=
  {| cam := cam w; gl := f (gl w) |}.

Definition withCam (f : Camera -> Camera) (w : World) : World :=
  {| cam := f (cam w); gl := gl w |}.

Definition record (call : GLCall) (g : GL) : GL :=
  {| boundTexture := boundTexture g; drawBuffers := drawBuffers g;
     program := program g; uniforms := uniforms g;
     glClearColor := glClearColor g; depthMask := depthMask g;
     depthTest := depthTest g; pixels := pixels g; draws := draws g;
     calls := calls g ++ [call] |}.

Definition setBoundTexture (t : option Texture) (g : GL) : GL :=
  {| boundTexture := t; drawBuffers := drawBuffers g;
     program := program g; uniforms := uniforms g;
     glClearColor := glClearColor g; depthMask := depthMask g;
     depthTest := depthTest g; pixels := pixels g; draws := draws g;
     calls := calls g |}.

Definition setDrawBuffers (bufs : list Attachment) (g : GL) : GL :=
  {| boundTexture := boundTexture g; drawBuffers := bufs;
     program := program g; uniforms := uniforms g;
     glClearColor := glClearColor g; depthMask := depthMask g;
     depthTest := depthTest g; pixels := pixels g; draws := draws g;
     calls := calls g |}.

Definition setProgram (p : option Program) (g : GL) : GL :=
  {| boundTexture := boundTexture g; drawBuffers := drawBuffers g;
     program := p; uniforms := uniforms g;
     glClearColor := glClearColor g; depthMask := depthMask g;
     depthTest := depthTest g; pixels := pixels g; draws := draws g;
     calls := calls g |}.

Definition setUniforms (u : list (string * Mat4)) (g : GL) : GL :=
  {| boundTexture := boundTexture g; drawBuffers := drawBuffers g;
     program := program g; uniforms := u;
     glClearColor := glClearColor g; depthMask := depthMask g;
     depthTest := depthTest g; pixels := pixels g; draws := draws g;
     calls := calls g |}.

Definition setGLClearColor (c : Color) (g : GL) : GL :=
  {| boundTexture := boundTexture g; drawBuffers := drawBuffers g;
     program := program g; uniforms := uniforms g;
     glClearColor := c; depthMask := depthMask g;
     depthTest := depthTest g; pixels := pixels g; draws := draws g;
     calls := calls g |}.

Definition setDepthMask (b : bool) (g : GL) : GL :=
  {| boundTexture := boundTexture g; drawBuffers := drawBuffers g;
     program := program g; uniforms := uniforms g;
     glClearColor := glClearColor g; depthMask := b;
     depthTest := depthTest g; pixels := pixels g; draws := draws g;
     calls := calls g |}.

Definition setDepthTest (b : bool) (g : GL) : GL :=
  {| boundTexture := boundTexture g; drawBuffers := drawBuffers g;
     program := program g; uniforms := uniforms g;
     glClearColor := glClearColor g; depthMask := depthMask g;
     depthTest := b; pixels := pixels g; draws := draws g;
     calls := calls g |}.

Definition setPixels (px : CameraTexture -> Image) (g : GL) : GL :=
  {| boundTexture := boundTexture g; drawBuffers := drawBuffers g;
     program := program g; uniforms := uniforms g;
     glClearColor := glClearColor g; depthMask := depthMask g;
     depthTest := depthTest g; pixels := px; draws := draws g;
     calls := calls g |}.

Definition addDraw (d : Draw) (g : GL) : GL :=
  {| boundTexture := boundTexture g; drawBuffers := drawBuffers g;
     program := program g; uniforms := uniforms g;
     glClearColor := glClearColor g; depthMask := depthMask g;
     depthTest := depthTest g; pixels := pixels g; draws := draws g ++ [d];
     calls := calls g |}.

Definition setEffectPass (p : Z) (c : Camera) : Camera :=
  {| textures := textures c; shaders := shaders c; meshes := meshes c;
     effects := effects c; deferredCache := deferredCache c;
     forwardCache := forwardCache c; framebuffer := framebuffer c;
     gbuffer := gbuffer c; projectionMatrix := projectionMatrix c;
     viewMatrix := viewMatrix c; clearColor := clearColor c;
     clearMode := clearMode c; renderPath := renderPath c;
     effectPass := p; effectActiveType := effectActiveType c;
     hdr := hdr c; skybox := skybox c |}.

Definition setEffectActiveType (t : EffectType) (c : Camera) : Camera :=
  {| textures := textures c; shaders := shaders c; meshes := meshes c;
     effects := effects c; deferredCache := deferredCache c;
     forwardCache := forwardCache c; framebuffer := framebuffer c;
     gbuffer := gbuffer c; projectionMatrix := projectionMatrix c;
     viewMatrix := viewMatrix c; clearColor := clearColor c;
     clearMode := clearMode c; renderPath := renderPath c;
     effectPass := effectPass c; effectActiveType := t;
     hdr := hdr c; skybox := skybox c |}.

Definition setCaches (deferred forward : list Component) (c : Camera) : Camera :=
  {| textures := textures c; shaders := shaders c; meshes := meshes c;
     effects := effects c; deferredCache := deferred;
     forwardCache := forward; framebuffer := framebuffer c;
     gbuffer := gbuffer c; projectionMatrix := projectionMatrix c;
     viewMatrix := viewMatrix c; clearColor := clearColor c;
     clearMode := clearMode c; renderPath := renderPath c;
     effectPass := effectPass c; effectActiveType := effectActiveType c;
     hdr := hdr c; skybox := skybox c |}.

(** *** The graphics layer

    What the calls of the [graphics] and [gl] packages do to the context.
    Each one is recorded in [calls] in the order the camera makes it. *)

(** The attachment table of the camera's framebuffer ([nil] framebuffer:
    nothing attached). *)
Definition attachments (c : Camera) : Attachments :=
  match framebuffer c with
  | Some fb => fbAttachments fb
  | None => fun _ => None
  end.

(** [SetAttachment(a, t)] on the framebuffer's table. *)
Definition SetAttachment (a : Attachment) (t : CameraTexture) (f : Attachments)
  : Attachments :=
  fun a' => if decide (a' = a) then Some t else f a'.

(** The textures attached at the attachment points [bufs]. *)
Definition attachedAt (f : Attachments) (bufs : list Attachment)
  : list CameraTexture :=
  omap f bufs.

(** The image a draw samples on texture unit 0. *)
Definition sampled (g : GL) : Image :=
  match boundTexture g with
  | None => NothingBound
  | Some (CameraTex t) => pixels g t
  | Some (Cubemap h) => CubemapData h
  end.

Fixpoint lookupUniform (name : string) (us : list (string * Mat4))
  : option Mat4 :=
  match us with
  | [] => None
  | (n, m) :: rest => if decide (n = name) then Some m else lookupUniform name rest
  end.

(** The value last set for the uniform [name]. *)
Definition uniform (g : GL) (name : string) : option Mat4 :=
  lookupUniform name (uniforms g).

(** Modelled from the spec: what "translation removed" does to a matrix
    is decided in the skybox shader, which is not part of the sources at
    hand; the translation of a [Mat4] is its fourth column, elements 12,
    13 and 14. *)
Definition removeTranslation (m : Mat4) : Mat4 :=
  <[14%nat := f32_0]> (<[13%nat := f32_0]> (<[12%nat := f32_0]> m)).

(** Modelled from the spec: the copy shader ([NewShaderUtilsCopy]) is an
    asset that is not part of the sources at hand; the "corrective
    full-screen copy pass" writes what it reads. *)
Definition copyShader (src : Image) : Image := src.

(** Modelled from the spec: the skybox shader ([NewShaderUtilsSkybox]) is
    an asset that is not part of the sources at hand; it samples the
    cubemap on unit 0 "using view+projection matrices with translation
    removed", the matrices being the two uniforms the camera sets. *)
Definition skyboxShader (g : GL) (cube : Image) : Image :=
  SkyboxView cube
    (removeTranslation <$> uniform g "v_view_matrix")
    (removeTranslation <$> uniform g "v_projection_matrix").

(** What the bound program makes of the sampled image; a program other
    than the two above is opaque. *)
Definition shade (g : GL) : Image :=
  match program g with
  | Some (CameraProgram CameraShaderCopy) => copyShader (sampled g)
  | Some (CameraProgram CameraShaderSkybox) => skyboxShader g (sampled g)
  | p => Shaded p (sampled g)
  end.

(** Writing image [img] into every texture of [targets]. *)
Definition writeTo (targets : list CameraTexture) (img : Image)
  (px : CameraTexture -> Image) : CameraTexture -> Image :=
  fun t => if bool_decide (t ∈ targets) then img else px t.

Definition glClearColorTo (c : Color) (w : World) : World :=
  withGL (fun g => record (ClearColor c) (setGLClearColor c g)) w.

(** [framebuffer.ClearBuffers()]: the selected draw buffers take the
    clear colour and the depth attachment is cleared. *)
Definition framebufferClearBuffers (w : World) : World :=
  let targets := attachedAt (attachments (cam w)) (drawBuffers (gl w)) in
  let depth := attachedAt (attachments (cam w)) [DEPTH_ATTACHMENT] in
  withGL (fun g =>
    record ClearBuffers
      (setPixels (writeTo depth ClearedDepth
                    (writeTo targets (ClearedTo (glClearColor g)) (pixels g))) g)) w.

(** [framebuffer.ClearBufferFlags(gl.DEPTH_BUFFER_BIT)]. *)
Definition framebufferClearDepth (w : World) : World :=
  let depth := attachedAt (attachments (cam w)) [DEPTH_ATTACHMENT] in
  withGL (fun g =>
    record (ClearBufferFlags DEPTH_BUFFER_BIT)
      (setPixels (writeTo depth ClearedDepth (pixels g)) g)) w.

(** [framebuffer.ApplyDrawBuffers(bufs)]. *)
Definition framebufferApplyDrawBuffers (bufs : list Attachment) (w : World)
  : World :=
  withGL (fun g => record (ApplyDrawBuffers bufs) (setDrawBuffers bufs g)) w.

(** [t.ActivateTexture(gl.TEXTURE0)]. *)
Definition activateTexture (t : Texture) (w : World) : World :=
  withGL (fun g => record (ActivateTexture t TEXTURE0)
                     (setBoundTexture (Some t) g)) w.

Definition meshBind (m : CameraMesh) (w : World) : World :=
  withGL (record (MeshBind m)) w.

Definition meshUnbind (m : CameraMesh) (w : World) : World :=
  withGL (record (MeshUnbind m)) w.

(** [mesh.Draw()]: one full-screen draw with the bound program, from the
    texture on unit 0 into the textures attached at the draw buffers. *)
Definition meshDraw (m : CameraMesh) (w : World) : World :=
  let targets := attachedAt (attachments (cam w)) (drawBuffers (gl w)) in
  withGL (fun g =>
    record (MeshDraw m)
      (addDraw {| drawProgram := program g; drawRead := boundTexture g;
                  drawSlots := drawBuffers g; drawWritten := targets |}
         (setPixels (writeTo targets (shade g) (pixels g)) g))) w.

Definition shaderBind (p : Program) (w : World) : World :=
  withGL (fun g => record (ShaderBind p) (setProgram (Some p) g)) w.

Definition shaderUnbind (p : Program) (w : World) : World :=
  withGL (fun g => record (ShaderUnbind p) (setProgram None g)) w.

Definition shaderSetSubroutine (p : Program) (name : string) (w : World)
  : World :=
  withGL (record (SetSubroutine p name)) w.

Definition shaderSetUniform (p : Program) (name : string) (m : Mat4) (w : World)
  : World :=
  withGL (fun g => record (SetUniform p name m)
                     (setUniforms ((name, m) :: uniforms g) g)) w.

Definition glDepthMask (b : bool) (w : World) : World :=
  withGL (fun g => record (DepthMask b) (setDepthMask b g)) w.

Definition glEnableDepthTest (w : World) : World :=
  withGL (fun g => record (Enable DEPTH_TEST) (setDepthTest true g)) w.

Definition glDisableDepthTest (w : World) : World :=
  withGL (fun g => record (Disable DEPTH_TEST) (setDepthTest false g)) w.


Definition setPipeline (ts : list CameraTexture) (ss : list CameraShader)
  (ms : list CameraMesh) (fb : option Framebuffer) (gb : option GBuffer)
  (c : Camera) : Camera :=
  {| textures := ts; shaders := ss; meshes := ms;
     effects := effects c; deferredCache := deferredCache c;
     forwardCache := forwardCache c; framebuffer := fb;
     gbuffer := gb; projectionMatrix := projectionMatrix c;
     viewMatrix := viewMatrix c; clearColor := clearColor c;
     clearMode := clearMode c; renderPath := renderPath c;
     effectPass := effectPass c; effectActiveType := effectActiveType c;
     hdr := hdr c; skybox := skybox c |}.

Definition SetProjectionMatrix (m : Mat4) (c : Camera) : Camera :=
  {| textures := textures c; shaders := shaders c; meshes := meshes c;
     effects := effects c; deferredCache := deferredCache c;
     forwardCache := forwardCache c; framebuffer := framebuffer c;
     gbuffer := gbuffer c; projectionMatrix := m;
     viewMatrix := viewMatrix c; clearColor := clearColor c;
     clearMode := clearMode c; renderPath := renderPath c;
     effectPass := effectPass c; effectActiveType := effectActiveType c;
     hdr := hdr c; skybox := skybox c |}.

(** *** The camera's methods *)

Definition ProjectionMatrix (c : Camera) : Mat4 := projectionMatrix c.
Definition ViewMatrix (c : Camera) : Mat4 := viewMatrix c.
Definition HDR (c : Camera) : bool := hdr c.

Definition clearBackground (w : World) : World :=
  match clearMode (cam w) with
  | ClearModeNothing => w
  | ClearModeDepth => framebufferClearDepth w
  | ClearModeColor =>
      let w := glClearColorTo (clearColor (cam w)) w in
      let w := framebufferClearBuffers w in
      glClearColorTo (f32_0, f32_0, f32_0, f32_1) w
  | ClearModeSkybox =>
      let w := framebufferClearBuffers w in
      match skybox (cam w) with
      | None => w
      | Some sky =>
          let sh := CameraProgram CameraShaderSkybox in
          let w := meshBind CameraMeshSkybox w in
          let w := shaderBind sh w in
          let w := activateTexture (Cubemap (Specular sky)) w in
          let w := shaderSetUniform sh "v_view_matrix" (ViewMatrix (cam w)) w in
          let w := shaderSetUniform sh "v_projection_matrix"
                     (ProjectionMatrix (cam w)) w in
          let w := meshDraw CameraMeshSkybox w in
          let w := shaderUnbind sh w in
          meshUnbind CameraMeshSkybox w
      end
  end.

Definition startRender (w : World) : World :=
  let w := withGL (record FramebufferBind) w in
  let w := if hdr (cam w)
           then framebufferApplyDrawBuffers [COLOR_ATTACHMENT1] w
           else framebufferApplyDrawBuffers [COLOR_ATTACHMENT0] w in
  clearBackground w.

Definition endRender (w : World) : World :=
  let w := withGL (record UnbindCurrentFramebuffer) w in
  withGL (record (BlitFramebuffers COLOR_ATTACHMENT0)) w.

Definition EffectPass (w : World) : World :=
  let w :=
    match effectActiveType (cam w) with
    | EffectTypeHDR =>
        if Int32.rem (effectPass (cam w)) 2 =? 1 then
          let w := activateTexture (CameraTex CameraTextureHDR1) w in
          framebufferApplyDrawBuffers [COLOR_ATTACHMENT1] w
        else
          let w := activateTexture (CameraTex CameraTextureHDR0) w in
          framebufferApplyDrawBuffers [COLOR_ATTACHMENT3] w
    | EffectTypeLDR =>
        if Int32.rem (effectPass (cam w)) 2 =? 1 then
          let w := activateTexture (CameraTex CameraTextureLDR1) w in
          framebufferApplyDrawBuffers [COLOR_ATTACHMENT0] w
        else
          let w := activateTexture (CameraTex CameraTextureLDR0) w in
          framebufferApplyDrawBuffers [COLOR_ATTACHMENT2] w
    | EffectTypeTonemapper => w
    end in
  let w := meshBind CameraMeshEffect w in
  let w := meshDraw CameraMeshEffect w in
  let w := meshUnbind CameraMeshEffect w in
  withCam (fun c => setEffectPass (Int32.add (effectPass c) 1) c) w.

Definition startEffectPass (w : World) : World :=
  let w := withCam (setEffectPass 0) w in
  match effectActiveType (cam w) with
  | EffectTypeTonemapper =>
      let w := activateTexture (CameraTex CameraTextureHDR0) w in
      framebufferApplyDrawBuffers [COLOR_ATTACHMENT0] w
  | _ => w
  end.

Definition endEffectPass (w : World) : World :=
  let w := if hdr (cam w)
           then framebufferApplyDrawBuffers [COLOR_ATTACHMENT1] w
           else framebufferApplyDrawBuffers [COLOR_ATTACHMENT0] w in
  if decide (effectActiveType (cam w) = EffectTypeTonemapper) then w
  else if Int32.rem (effectPass (cam w)) 2 =? 1 then w
  else
    let copy := CameraProgram CameraShaderCopy in
    let w := shaderBind copy w in
    let w := shaderSetSubroutine copy "pass_0" w in
    let w := if decide (effectActiveType (cam w) = EffectTypeHDR)
             then activateTexture (CameraTex CameraTextureHDR1) w
             else activateTexture (CameraTex CameraTextureLDR1) w in
    let w := meshBind CameraMeshEffect w in
    let w := meshDraw CameraMeshEffect w in
    let w := meshUnbind CameraMeshEffect w in
    shaderUnbind copy w.

(** Modelled from the spec: the effects' [Render] methods are not part of
    the sources at hand. The effect with identity [id] runs its first [n]
    sub-passes: for each it binds the shader of that step and calls the
    camera's [EffectPass]. *)
Fixpoint subPasses (id n : nat) (w : World) : World :=
  match n with
  | O => w
  | S k => EffectPass (shaderBind (EffectProgram id k) (subPasses id k w))
  end.

Definition Render (e : Effect) (w : World) : World :=
  subPasses (effectID e) (effectSubPasses e) w.

(** The body of the loop over the effects of an HDR camera. *)
Definition hdrStep (w : World) (e : Effect) : World :=
  if decide (effectType e = EffectTypeTonemapper) then
    let w := withCam (setEffectActiveType EffectTypeTonemapper) w in
    let w := startEffectPass w in
    let w := Render e w in
    let w := endEffectPass w in
    withCam (setEffectActiveType EffectTypeLDR) w
  else
    let w := startEffectPass w in
    let w := Render e w in
    endEffectPass w.

(** The body of the loop over the effects of a camera without HDR. *)
Definition ldrStep (w : World) (e : Effect) : World :=
  let w := startEffectPass w in
  let w := Render e w in
  endEffectPass w.

(** The loop of [renderEffects] over the effects [es], from the state in
    which it is entered. *)
Definition effectLoop (es : list Effect) (w : World) : World :=
  if hdr (cam w) then
    foldl hdrStep (withCam (setEffectActiveType EffectTypeHDR) w) es
  else
    foldl ldrStep (withCam (setEffectActiveType EffectTypeLDR) w) es.

Definition renderEffects (w : World) : World :=
  match effects (cam w) with
  | [] => w
  | es =>
      let w := glDepthMask false w in
      let w := glDisableDepthTest w in
      let w := effectLoop es w in
      let w := glEnableDepthTest w in
      glDepthMask true w
  end.

(** [OnSceneGraphUpdate]; [components] is what
    [c.GameObject().Scene().Components()] returns. *)
Definition OnSceneGraphUpdate (components : list Component) (c : Camera)
  : Camera :=
  let c := setCaches [] (forwardCache c) c in
  let c := setCaches (deferredCache c) [] c in
  let drawables := filter (fun x => isDrawable x = true) components in
  match renderPath c with
  | RenderPathForward => setCaches (deferredCache c) drawables c
  | RenderPathDeferred =>
      foldl (fun c d =>
               if SupportsDeferred d
               then setCaches (deferredCache c ++ [d]) (forwardCache c) c
               else setCaches (deferredCache c) (forwardCache c ++ [d]) c)
            c drawables
  end.

(** *** Construction *)

(** What the outside answers during construction: whether
    [instance.MustAssign] panics, the errors the two [Alloc] calls
    return ([None] for [nil]), and what the window reports. *)
Record Env := {
  mustAssign : option string;
  framebufferAlloc : option string;
  gbufferAlloc : option string;
  windowProjection : Mat4;
  environmentSkybox : option Skybox
}.

(** A call either returns or panics with an error. *)
Inductive Outcome (A : Type) :=
| Done (a : A)
| Panicked (err : string).
Arguments Done {A} a.
Arguments Panicked {A} err.

(** The attachment table [setupPipeline] builds, call by call. *)
Definition pipelineAttachments (hdrFlag : bool) : Attachments :=
  let at0 : Attachments := fun _ => None in
  let at0 := SetAttachment COLOR_ATTACHMENT0 CameraTextureLDR0 at0 in
  let at0 := SetAttachment COLOR_ATTACHMENT2 CameraTextureLDR1 at0 in
  let at0 := SetAttachment COLOR_ATTACHMENT4 CameraTextureNormals at0 in
  let at0 := SetAttachment DEPTH_ATTACHMENT CameraTextureDepth at0 in
  if hdrFlag
  then SetAttachment COLOR_ATTACHMENT3 CameraTextureHDR1
         (SetAttachment COLOR_ATTACHMENT1 CameraTextureHDR0 at0)
  else at0.

Definition setupPipeline (env : Env) (c : Camera) : Outcome Camera :=
  let ms := [CameraMeshEffect; CameraMeshSkybox] in
  let ss := [CameraShaderCopy; CameraShaderSkybox; CameraShaderNormals] in
  let ts := [CameraTextureLDR0; CameraTextureLDR1; CameraTextureDepth;
             CameraTextureNormals] in
  let ts := if hdr c then ts ++ [CameraTextureHDR0; CameraTextureHDR1] else ts in
  let fb := {| fbAttachments := pipelineAttachments (hdr c) |} in
  match framebufferAlloc env with
  | Some err => Panicked err
  | None =>
      match renderPath c with
      | RenderPathDeferred =>
          let ms := ms ++ [CameraMeshGBuffer] in
          let ss := ss ++ [CameraShaderDeferred] in
          let gb := {| gbDepth := fbAttachments fb DEPTH_ATTACHMENT;
                       gbHDR := hdr c |} in
          match gbufferAlloc env with
          | Some err => Panicked err
          | None => Done (setPipeline ts ss ms (Some fb) (Some gb) c)
          end
      | RenderPathForward => Done (setPipeline ts ss ms (Some fb) None c)
      end
  end.

Definition ColorBlack : Color := (f32_0, f32_0, f32_0, f32_1).

(** [NewCamera]; the fields the literal leaves out take their zero
    values (which constant of [EffectType] is the zero value is not
    visible here, and [renderEffects] assigns the field before reading
    it). [UpdateMatrices] stores the projection the window gives. *)
Definition blankCamera (env : Env) (path : RenderPath) (hdrFlag : bool)
  : Camera :=
  {| textures := []; shaders := []; meshes := [];
     effects := []; deferredCache := []; forwardCache := [];
     framebuffer := None; gbuffer := None;
     projectionMatrix := []; viewMatrix := [];
     clearColor := ColorBlack; clearMode := ClearModeSkybox;
     renderPath := path; effectPass := 0;
     effectActiveType := EffectTypeHDR;
     hdr := hdrFlag; skybox := environmentSkybox env |}.

Definition NewCamera (env : Env) (path : RenderPath) (hdrFlag : bool)
  : Outcome Camera :=
  let c := blankCamera env path hdrFlag in
  match mustAssign env with
  | Some err => Panicked err
  | None =>
      match setupPipeline env c with
      | Panicked err => Panicked err
      | Done c => Done (SetProjectionMatrix (windowProjection env) c)
      end
  end.

Definition AddEffect (e : Effect) (c : Camera) : Camera :=
  {| textures := textures c; shaders := shaders c; meshes := meshes c;
     effects := effects c ++ [e]; deferredCache := deferredCache c;
     forwardCache := forwardCache c; framebuffer := framebuffer c;
     gbuffer := gbuffer c; projectionMatrix := projectionMatrix c;
     viewMatrix := viewMatrix c; clearColor := clearColor c;
     clearMode := clearMode c; renderPath := renderPath c;
     effectPass := effectPass c; effectActiveType := effectActiveType c;
     hdr := hdr c; skybox := skybox c |}.

Definition SetClearMode (mode : ClearMode) (c : Camera) : Camera :=
  {| textures := textures c; shaders := shaders c; meshes := meshes c;
     effects := effects c; deferredCache := deferredCache c;
     forwardCache := forwardCache c; framebuffer := framebuffer c;
     gbuffer := gbuffer c; projectionMatrix := projectionMatrix c;
     viewMatrix := viewMatrix c; clearColor := clearColor c;
     clearMode := mode; renderPath := renderPath c;
     effectPass := effectPass c; effectActiveType := effectActiveType c;
     hdr := hdr c; skybox := skybox c |}.

Definition SetViewMatrix (m : Mat4) (c : Camera) : Camera :=
  {| textures := textures c; shaders := shaders c; meshes := meshes c;
     effects := effects c; deferredCache := deferredCache c;
     forwardCache := forwardCache c; framebuffer := framebuffer c;
     gbuffer := gbuffer c; projectionMatrix := projectionMatrix c;
     viewMatrix := m; clearColor := clearColor c;
     clearMode := clearMode c; renderPath := renderPath c;
     effectPass := effectPass c; effectActiveType := effectActiveType c;
     hdr := hdr c; skybox := skybox c |}.

(** A camera built by [setupPipeline]: its framebuffer carries the
    attachment table for its HDR flag. *)
Definition Built (c : Camera) : Prop :=
  framebuffer c = Some {| fbAttachments := pipelineAttachments (hdr c) |}.

(** *** The vocabulary of the ping-pong protocol *)

(** The two domains that own a pair of buffers. *)
Definition primary (t : EffectType) : option CameraTexture :=
  match t with
  | EffectTypeHDR => Some CameraTextureHDR0
  | EffectTypeLDR => Some CameraTextureLDR0
  | EffectTypeTonemapper => None
  end.

Definition secondary (t : EffectType) : option CameraTexture :=
  match t with
  | EffectTypeHDR => Some CameraTextureHDR1
  | EffectTypeLDR => Some CameraTextureLDR1
  | EffectTypeTonemapper => None
  end.

(** The attachment point at which [setupPipeline] attaches a texture. *)
Definition slot (t : CameraTexture) : Attachment :=
  match t with
  | CameraTextureLDR0 => COLOR_ATTACHMENT0
  | CameraTextureHDR0 => COLOR_ATTACHMENT1
  | CameraTextureLDR1 => COLOR_ATTACHMENT2
  | CameraTextureHDR1 => COLOR_ATTACHMENT3
  | CameraTextureNormals => COLOR_ATTACHMENT4
  | CameraTextureDepth => DEPTH_ATTACHMENT
  end.

(** A draw samples one of the camera's textures and writes none that it
    samples. *)
Definition noAlias (d : Draw) : Prop :=
  exists r, drawRead d = Some (CameraTex r) /\ r ∉ drawWritten d.

(** The image the first [n] sub-passes of effect [id] make of [x]. *)
Fixpoint stage (id n : nat) (x : Image) : Image :=
  match n with
  | O => x
  | S k => Shaded (Some (EffectProgram id k)) (stage id k x)
  end.


(** *** Predicates on the states of the effect chain *)

(** What every state inside an effect satisfies: the camera is built,
    the active type is [t], and under the tonemapper the bindings are
    those [startEffectPass] made. *)
Definition inEffect (t : EffectType) (w : World) : Prop :=
  Built (cam w)
  /\ effectActiveType (cam w) = t
  /\ (t = EffectTypeTonemapper ->
      boundTexture (gl w) = Some (CameraTex CameraTextureHDR0)
      /\ drawBuffers (gl w) = [COLOR_ATTACHMENT0]).

(** The parts of the camera no step of the effect chain assigns. *)
Definition sameRig (c c' : Camera) : Prop :=
  framebuffer c' = framebuffer c /\ hdr c' = hdr c.

(** A draw of the tonemapper: HDR-primary in, LDR-primary out. *)
Definition converts (d : Draw) : Prop :=
  drawRead d = Some (CameraTex CameraTextureHDR0)
  /\ drawSlots d = [slot CameraTextureLDR0]
  /\ drawWritten d = [CameraTextureLDR0].

(** The camera and the active type fit together as [renderEffects]
    leaves them before the tonemapper: HDR on an HDR camera, LDR on a
    camera without HDR. *)
Definition plainDomain (w : World) (prim sec : CameraTexture) : Prop :=
  Built (cam w)
  /\ ((effectActiveType (cam w) = EffectTypeHDR /\ hdr (cam w) = true
       /\ prim = CameraTextureHDR0 /\ sec = CameraTextureHDR1)
      \/ (effectActiveType (cam w) = EffectTypeLDR /\ hdr (cam w) = false
          /\ prim = CameraTextureLDR0 /\ sec = CameraTextureLDR1)).

(** The texture that holds the newest image after [k] sub-passes. *)
Definition newest (prim sec : CameraTexture) (k : nat) : CameraTexture :=
  if Z.odd (Z.of_nat k) then sec else prim.

(** *** Predicates on calls and draws *)

(** The calls the effect chain makes between the two changes of the
    depth state: bindings, selections of the draw buffer and draws. *)
Definition effectCall (c : GLCall) : Prop :=
  match c with
  | ActivateTexture _ _ | ApplyDrawBuffers _
  | MeshBind _ | MeshDraw _ | MeshUnbind _
  | ShaderBind _ | ShaderUnbind _ | SetSubroutine _ _ => True
  | _ => False
  end.

(** From [w] to [w'] the context has only gained calls of the effect
    chain, and its depth flags and clear colour are what they were. *)
Definition onlyEffectCalls (w w' : World) : Prop :=
  depthMask (gl w') = depthMask (gl w)
  /\ depthTest (gl w') = depthTest (gl w)
  /\ glClearColor (gl w') = glClearColor (gl w)
  /\ exists cs, calls (gl w') = calls (gl w) ++ cs /\ Forall effectCall cs.

(** A draw that stays within the pair of LDR textures. *)
Definition ldrOnly (d : Draw) : Prop :=
  (drawRead d = Some (CameraTex CameraTextureLDR0)
   \/ drawRead d = Some (CameraTex CameraTextureLDR1))
  /\ forall t, t ∈ drawWritten d ->
       t = CameraTextureLDR0 \/ t = CameraTextureLDR1.

(** From [w] to [w'] on a camera without HDR: the camera is still built
    and without HDR, the active type is LDR, the draws gained stay
    within the LDR pair, and the other textures hold what they held. *)
Definition ldrChain (w w' : World) : Prop :=
  Built (cam w') /\ hdr (cam w') = false
  /\ effectActiveType (cam w') = EffectTypeLDR
  /\ (exists ds, draws (gl w') = draws (gl w) ++ ds /\ Forall ldrOnly ds)
  /\ forall t, t <> CameraTextureLDR0 -> t <> CameraTextureLDR1 ->
       pixels (gl w') t = pixels (gl w) t.

(** The draw of the copy pass of [endEffectPass] in state [w]. *)
Definition copyDraw (w : World) : Draw :=
  let bufs := if hdr (cam w) then [COLOR_ATTACHMENT1] else [COLOR_ATTACHMENT0] in
  {| drawProgram := Some (CameraProgram CameraShaderCopy);
     drawRead :=
       Some (CameraTex (if decide (effectActiveType (cam w) = EffectTypeHDR)
                        then CameraTextureHDR1 else CameraTextureLDR1));
     drawSlots := bufs;
     drawWritten := attachedAt (attachments (cam w)) bufs |}.


(** *** Concrete cameras and contexts *)

Definition identity4 : Mat4 :=
  [f32_1; f32_0; f32_0; f32_0;
   f32_0; f32_1; f32_0; f32_0;
   f32_0; f32_0; f32_1; f32_0;
   f32_0; f32_0; f32_0; f32_1].

(** A view matrix that moves the scene by (1, 1, 1). *)
Definition translated4 : Mat4 :=
  [f32_1; f32_0; f32_0; f32_0;
   f32_0; f32_1; f32_0; f32_0;
   f32_0; f32_0; f32_1; f32_0;
   f32_1; f32_1; f32_1; f32_1].

Definition quietEnv (sky : option Skybox) : Env :=
  {| mustAssign := None; framebufferAlloc := None; gbufferAlloc := None;
     windowProjection := identity4; environmentSkybox := sky |}.

(** The camera [NewCamera] returns when nothing fails. *)
Definition newCamera (sky : option Skybox) (path : RenderPath) (hdrFlag : bool)
  : Camera :=
  match NewCamera (quietEnv sky) path hdrFlag with
  | Done c => c
  | Panicked _ => blankCamera (quietEnv sky) path hdrFlag
  end.

(** A context in which nothing is bound and every texture holds what it
    held before. *)
Definition freshGL : GL :=
  {| boundTexture := None; drawBuffers := []; program := None; uniforms := [];
     glClearColor := ColorBlack; depthMask := true; depthTest := true;
     pixels := Initial; draws := []; calls := [] |}.

Definition worldOf (c : Camera) : World := {| cam := c; gl := freshGL |}.

Definition blur (n : nat) : Effect :=
  {| effectID := 1; effectType := EffectTypeHDR; effectSubPasses := n |}.
Definition tonemap : Effect :=
  {| effectID := 2; effectType := EffectTypeTonemapper; effectSubPasses := 1 |}.
Definition vignette (n : nat) : Effect :=
  {| effectID := 3; effectType := EffectTypeLDR; effectSubPasses := n |}.

End Scene.

(** ** app/app.go: the registry of systems *)

Module App.

(** A system as the app sees it through the [core.System] interface:
    the name [Name()] returns; [sysTag] tells two systems of one name
    apart. *)
Record System := { sysName : string; sysTag : nat }.

#[global] Instance System_eq_dec : EqDecision System.
Proof. solve_decision. Defined.

(** [App]; of the two teardown callbacks the model keeps whether they
    are set ([nil] or not). *)
Record App := {
  preTeardownFunc : bool;
  postTeardownFunc : bool;
  systems : list System;
  running : bool
}.

Definition NewApp : App :=
  {| preTeardownFunc := false; postTeardownFunc := false;
     systems := []; running := false |}.

Inductive Error :=
| ErrSystemExists (name : string)
| ErrSystemNotFound (name : string).

(** A call returns a value or panics with an error. *)
Inductive Result (A : Type) :=
| Ok (a : A)
| Panic (e : Error).
Arguments Ok {A} a.
Arguments Panic {A} e.

(** The loop of [SystemRegistered] over the slice. *)
Fixpoint registeredIn (ss : list System) (name : string) : bool :=
  match ss with
  | [] => false
  | s :: rest => if decide (sysName s = name) then true else registeredIn rest name
  end.

Definition SystemRegistered (a : App) (name : string) : bool :=
  registeredIn (systems a) name.

(** The loop of [System] over the slice: the first system of that name. *)
Fixpoint findIn (ss : list System) (name : string) : option System :=
  match ss with
  | [] => None
  | s :: rest => if decide (sysName s = name) then Some s else findIn rest name
  end.

(** [System]: the system and [nil], or [nil] and [ErrSystemNotFound]. *)
Definition GetSystem (a : App) (name : string) : System + Error :=
  match findIn (systems a) name with
  | Some s => inl s
  | None => inr (ErrSystemNotFound name)
  end.

Definition MustSystem (a : App) (name : string) : Result System :=
  match GetSystem a name with
  | inl s => Ok s
  | inr e => Panic e
  end.

Definition RegisterSystem (s : System) (a : App) : Result App :=
  if SystemRegistered a (sysName s) then Panic (ErrSystemExists (sysName s))
  else Ok {| preTeardownFunc := preTeardownFunc a;
             postTeardownFunc := postTeardownFunc a;
             systems := systems a ++ [s];
             running := running a |}.

Definition Quit (a : App) : App :=
  {| preTeardownFunc := preTeardownFunc a;
     postTeardownFunc := postTeardownFunc a;
     systems := systems a;
     running := false |}.

(** What [Teardown] calls, in order. *)
Inductive Event :=
| PreTeardown
| SystemTeardown (s : System)
| PostTeardown.

(** The loop [for i := len(a.systems) - 1; i >= 0; i--], entered with
    [i + 1 = n]; an index outside the slice would panic and ends the
    run of events. *)
Fixpoint teardownFrom (ss : list System) (n : nat) : list Event :=
  match n with
  | O => []
  | S i =>
      match ss !! i with
      | Some s => SystemTeardown s :: teardownFrom ss i
      | None => []
      end
  end.

Definition Teardown (a : App) : list Event :=
  (if preTeardownFunc a then [PreTeardown] else [])
  ++ teardownFrom (systems a) (length (systems a))
  ++ (if postTeardownFunc a then [PostTeardown] else []).

(** Registering the systems of a list one after the other, stopping at
    the first panic. *)
Fixpoint registerAll (ss : list System) (a : App) : Result App :=
  match ss with
  | [] => Ok a
  | s :: rest =>
      match RegisterSystem s a with
      | Ok a' => registerAll rest a'
      | Panic e => Panic e
      end
  end.

Definition names (a : App) : list string := sysName <$> systems a.

End App.

(** * Properties *)

(** ** 32-bit arithmetic *)

Module Int32Facts.
Import Int32.

Lemma wrap_id z : in_range z -> wrap z = z.
Proof.
  unfold in_range, wrap, MinInt32, MaxInt32. intros H.
  rewrite Z.mod_small; lia.
Qed.

Lemma wrap_in_range z : in_range (wrap z).
Proof.
  unfold in_range, wrap, MinInt32, MaxInt32.
  pose proof (Z.mod_pos_bound (z + 2147483648) 4294967296). lia.
Qed.

Lemma add_small a b : in_range (a + b) -> add a b = a + b.
Proof. apply wrap_id. Qed.

(** For a counter that is not negative, the test [p % 2 == 1] is the
    test for an odd value. *)
Lemma rem2_odd p : 0 <= p -> (rem p 2 =? 1) = Z.odd p.
Proof.
  intros Hp. unfold rem. rewrite Z.rem_mod_nonneg by lia.
  rewrite Zmod_odd. destruct (Z.odd p); reflexivity.
Qed.

Lemma succ_small p : 0 <= p < MaxInt32 -> add p 1 = p + 1.
Proof.
  intros H. apply add_small. unfold in_range, MinInt32, MaxInt32 in *. lia.
Qed.

Lemma wrap_succ_wrap a : add (wrap a) 1 = wrap (a + 1).
Proof.
  unfold add, wrap.
  replace ((a + 2147483648) mod 4294967296 - 2147483648 + 1 + 2147483648)
    with ((a + 2147483648) mod 4294967296 + 1) by lia.
  replace (a + 1 + 2147483648) with ((a + 2147483648) + 1) by lia.
  rewrite Zplus_mod_idemp_l. reflexivity.
Qed.

Lemma wrap_of_count n : Z.of_nat n <= MaxInt32 -> wrap (Z.of_nat n) = Z.of_nat n.
Proof.
  intros H. apply wrap_id. unfold in_range, MinInt32, MaxInt32 in *. lia.
Qed.

End Int32Facts.

(** ** The instance system *)

Module InstanceFacts.
Import Core.


(** When the candidate is free, the loop is not entered and [nextID]
    returns the candidate, whatever the fuel. *)
Lemma nextID_free fuel s :
  Z.of_nat (size (objects s)) < Int32.MaxInt32 ->
  has s (Int32.add (next s) 1) = false ->
  nextID fuel s =
    Returned (Int32.add (next s) 1)
             {| objects := objects s; next := Int32.add (next s) 1 |}.
Proof.
  intros Hsz Hfree. unfold nextID.
  rewrite bool_decide_eq_false_2 by lia.
  rewrite Hfree. destruct fuel; reflexivity.
Qed.

(** When the candidate is taken, the loop condition stays true through
    every iteration. *)
Lemma nextID_loop_spins fuel s id :
  has s (Int32.add (next s) 1) = true ->
  nextID_loop fuel s id true = None.
Proof.
  intros Htaken. induction fuel as [|fuel IH]; simpl.
  - reflexivity.
  - rewrite Htaken. exact IH.
Qed.

Lemma nextID_taken fuel s :
  Z.of_nat (size (objects s)) < Int32.MaxInt32 ->
  has s (Int32.add (next s) 1) = true ->
  nextID fuel s = Spinning.
Proof.
  intros Hsz Htaken. unfold nextID.
  rewrite bool_decide_eq_false_2 by lia.
  rewrite Htaken, nextID_loop_spins by exact Htaken. reflexivity.
Qed.

Lemma taken_state_small :
  Z.of_nat (size (objects taken_state)) < Int32.MaxInt32.
Proof. unfold taken_state; simpl. rewrite map_size_singleton. reflexivity. Qed.

Lemma taken_state_taken :
  has taken_state (Int32.add (next taken_state) 1) = true.
Proof. reflexivity. Qed.

(** C10, at the state with one object of ID 1 and [next = 0]: the table
    holds one object, the candidate ID 1 is assigned, and [nextID] does
    not return for any number of loop iterations. *)
Theorem nextID_never_returns_when_candidate_taken :
  forall fuel, nextID fuel taken_state = Spinning.
Proof.
  intros fuel. apply nextID_taken.
  - exact taken_state_small.
  - exact taken_state_taken.
Qed.

(** With the counter at -1 and ID 0 free, the ID returned is 0. *)
Lemma nextID_returns_zero fuel :
  nextID fuel minus_one_state =
    Returned 0 {| objects := ∅; next := 0 |}.
Proof. destruct fuel; reflexivity. Qed.

(** *** Assign, Get and the release loops *)

Lemma nextID_loop_not_entered fuel s id : nextID_loop fuel s id false = Some id.
Proof. destruct fuel; reflexivity. Qed.

(** X1. Whenever [nextID] returns an ID, for any state of the system, it
    is [next + 1] (wrapped to 32 bits), it is not a key of the table,
    the table is left as it was and [next] is that ID. *)
Theorem nextID_returns_unused (fuel : nat) (s s' : InstanceSystem) (id : Z) :
  nextID fuel s = Returned id s' ->
  id = Int32.add (next s) 1
  /\ objects s !! id = None
  /\ objects s' = objects s
  /\ next s' = id.
Proof.
  unfold nextID. case_bool_decide as Hsize; [discriminate|].
  destruct (has s (Int32.add (next s) 1)) eqn:Hhas.
  - rewrite nextID_loop_spins by exact Hhas. discriminate.
  - rewrite nextID_loop_not_entered. intros [= <- <-].
    split; [reflexivity|]. split; [|split; reflexivity].
    unfold has in Hhas. apply bool_decide_eq_false in Hhas.
    destruct (objects s !! Int32.add (next s) 1) eqn:E; [|reflexivity].
    exfalso. apply Hhas. eauto.
Qed.

Lemma nextID_returns_unused_witness :
  nextID 0 NewInstanceSystem = Returned 1 {| objects := ∅; next := 1 |}
  /\ objects NewInstanceSystem !! 1 = None.
Proof.
  split; [reflexivity|].
  exact (proj1 (proj2 (nextID_returns_unused 0 NewInstanceSystem
                         {| objects := ∅; next := 1 |} 1 eq_refl))).
Defined.



Lemma consistent_unused s id :
  consistent s -> next s < id -> objects s !! id = None.
Proof.
  intros (_ & _ & Hkeys) Hlt.
  destruct (objects s !! id) as [o|] eqn:E; [|reflexivity].
  destruct (Hkeys id o E) as [Hr _]. lia.
Qed.

Lemma assign_in_consistent fuel s o :
  consistent s ->
  next s < Int32.MaxInt32 ->
  objID o = 0 ->
  let k := next s + 1 in
  let s' := {| objects := <[k := SetID k o]> (objects s); next := k |} in
  Assign fuel (Some o) s = AssignOk (SetID k o) s'
  /\ consistent s'
  /\ objects s !! k = None.
Proof.
  intros Hc Hlt Hid k s'. pose proof Hc as (Hn0 & Hsz & Hkeys).
  assert (Hadd : Int32.add (next s) 1 = k)
    by (apply Int32Facts.succ_small; lia).
  assert (Hfree : objects s !! k = None)
    by (apply consistent_unused; [exact Hc | unfold k; lia]).
  assert (Hnext : nextID fuel s =
            Returned k {| objects := objects s; next := k |}).
  { rewrite <- Hadd. apply nextID_free; [lia|].
    unfold has. apply bool_decide_eq_false. rewrite Hadd, Hfree.
    intros [x Hx]. discriminate. }
  split; [|split; [|exact Hfree]].
  { unfold Assign. rewrite Hid. cbn [Z.eqb negb]. rewrite Hnext. reflexivity. }
  subst s'. split; [cbn; lia|]. split.
  - cbn [objects next]. rewrite map_size_insert_None by exact Hfree.
    rewrite Nat2Z.inj_succ. lia.
  - cbn [objects next]. intros id x Hx.
    destruct (decide (id = k)) as [->|Hne].
    + rewrite lookup_insert_eq in Hx. injection Hx as <-. cbn. lia.
    + rewrite lookup_insert_ne in Hx by congruence.
      destruct (Hkeys id x Hx). lia.
Qed.

(** X3. In a system whose counter has not wrapped around and stands
    below [MaxInt32], assigning an object with ID 0 succeeds, whatever
    was released before: the object gets the ID [next + 1], [Get] finds
    it under that ID, the system stays consistent with [next] advanced
    by one, and assigning the returned object a second time, to any
    system, is refused with [ErrObjectAlreadyAssigned]. *)
Theorem Assign_consistent (fuel : nat) (s : InstanceSystem) (o : Object) :
  consistent s ->
  next s < Int32.MaxInt32 ->
  objID o = 0 ->
  exists s',
    Assign fuel (Some o) s = AssignOk (SetID (next s + 1) o) s'
    /\ consistent s'
    /\ next s' = next s + 1
    /\ Get (next s + 1) s' = Found (SetID (next s + 1) o)
    /\ (forall fuel2 s2,
          Assign fuel2 (Some (SetID (next s + 1) o)) s2
            = AssignErr ErrObjectAlreadyAssigned).
Proof.
  intros Hc Hlt Hid.
  destruct (assign_in_consistent fuel s o Hc Hlt Hid) as (HA & Hc' & _).
  eexists. split; [exact HA|]. split; [exact Hc'|].
  split; [reflexivity|]. split.
  - unfold Get. cbn [objects]. rewrite lookup_insert_eq. reflexivity.
  - intros fuel2 s2. unfold Assign. cbn [objID SetID].
    destruct Hc as (Hn0 & _).
    replace (next s + 1 =? 0) with false by (symmetry; apply Z.eqb_neq; lia).
    reflexivity.
Qed.

Lemma Assign_consistent_witness :
  (consistent NewInstanceSystem
   /\ next NewInstanceSystem < Int32.MaxInt32
   /\ objID (fresh "light") = 0)
  /\ exists s',
       Assign 3 (Some (fresh "light")) NewInstanceSystem
         = AssignOk (SetID (next NewInstanceSystem + 1) (fresh "light")) s'
       /\ consistent s'.
Proof.
  assert (Hc : consistent NewInstanceSystem).
  { split; [reflexivity|]. split; [cbn; rewrite map_size_empty; reflexivity|].
    intros id o H. cbn in H. rewrite lookup_empty in H. discriminate. }
  split; [split; [exact Hc | split; reflexivity]|].
  destruct (Assign_consistent 3 NewInstanceSystem (fresh "light") Hc eq_refl eq_refl)
    as (s' & HA & Hc' & _).
  exists s'. split; assumption.
Defined.


Lemma ReleaseAll_steps order s :
  ReleaseAll order s = foldl (releaseStep false) (s, []) order.
Proof. reflexivity. Qed.

Lemma releaseStep_cases b acc v :
  (releaseStep b acc v = acc /\ ~ (b = true -> v <> 0))
  \/ ((b = true -> v <> 0) /\ objects acc.1 !! v = None
      /\ releaseStep b acc v = (acc.1, acc.2 ++ [NotFound v]))
  \/ ((b = true -> v <> 0) /\ exists o, objects acc.1 !! v = Some o
      /\ releaseStep b acc v =
           ({| objects := delete v (objects acc.1); next := next acc.1 |},
            acc.2 ++ [Released v o])).
Proof.
  destruct acc as [s log]. unfold releaseStep, releaseKey. cbn [fst snd].
  destruct b; cbn [andb].
  - destruct (v =? 0) eqn:Hv.
    + left. apply Z.eqb_eq in Hv. split; [reflexivity|]. intros H. apply H; auto.
    + apply Z.eqb_neq in Hv. right.
      destruct (objects s !! v) as [o|]; [right | left]; split; eauto.
  - right. destruct (objects s !! v) as [o|]; [right | left];
      (split; [discriminate|]); eauto.
Qed.

Lemma release_fold_state b ids acc :
  let r := foldl (releaseStep b) acc ids in
  next r.1 = next acc.1
  /\ forall k, objects r.1 !! k =
       if decide ((b = true -> k <> 0) /\ k ∈ ids) then None else objects acc.1 !! k.
Proof.
  revert acc. induction ids as [|v ids IH]; intros acc; cbn zeta.
  - simpl. split; [reflexivity|]. intros k.
    rewrite decide_False; [reflexivity|]. intros [_ H]. inversion H.
  - simpl foldl. destruct (IH (releaseStep b acc v)) as [IHn IHk].
    assert (Hstep : next (releaseStep b acc v).1 = next acc.1
              /\ forall k, objects (releaseStep b acc v).1 !! k =
                   if decide ((b = true -> v <> 0) /\ k = v) then None
                   else objects acc.1 !! k).
    { destruct (releaseStep_cases b acc v)
        as [[-> Hna] | [(Ha & Hnone & ->) | (Ha & o & Hsome & ->)]];
        cbn [fst snd next objects]; (split; [reflexivity|]); intros k;
        destruct (decide ((b = true -> v <> 0) /\ k = v)) as [Hd|Hd];
        try reflexivity.
      - destruct Hd as [Hd _]. exfalso. exact (Hna Hd).
      - destruct Hd as [_ ->]. exact Hnone.
      - destruct Hd as [_ ->]. apply lookup_delete_eq.
      - apply lookup_delete_ne. intros <-. apply Hd. auto. }
    destruct Hstep as [Hsn Hsk]. split; [congruence|].
    intros k. rewrite IHk, Hsk.
    destruct (decide ((b = true -> k <> 0) /\ k ∈ v :: ids)) as [[Hc Hin3]|H3];
      destruct (decide ((b = true -> k <> 0) /\ k ∈ ids)) as [[Ha Hin]|H1];
      try reflexivity;
      destruct (decide ((b = true -> v <> 0) /\ k = v)) as [[Hb Hkv]|H2];
      try reflexivity; exfalso.
    + apply elem_of_cons in Hin3. destruct Hin3 as [-> | Hin].
      * apply H2. auto.
      * apply H1. auto.
    + apply H3. split; [assumption | right; assumption].
    + apply H3. split; [assumption | right; assumption].
    + apply H3. subst k. split; [assumption | left].
Qed.

Lemma releasedIDs_app l1 l2 : releasedIDs (l1 ++ l2) = releasedIDs l1 ++ releasedIDs l2.
Proof. unfold releasedIDs. apply omap_app. Qed.

Lemma elem_of_releasedIDs id log :
  id ∈ releasedIDs log <-> exists o, Released id o ∈ log.
Proof.
  unfold releasedIDs. rewrite list_elem_of_omap. split.
  - intros ([k|k o] & Hin & Heq); [discriminate|].
    injection Heq as ->. eauto.
  - intros [o Hin]. exists (Released id o). auto.
Qed.

Lemma release_fold_log b ids acc :
  exists new,
    (foldl (releaseStep b) acc ids).2 = acc.2 ++ new
    /\ (forall id o, Released id o ∈ new <->
          (b = true -> id <> 0) /\ id ∈ ids /\ objects acc.1 !! id = Some o)
    /\ (forall id, NotFound id ∈ new -> (b = true -> id <> 0) /\ id ∈ ids)
    /\ NoDup (releasedIDs new).
Proof.
  revert acc. induction ids as [|v ids IH]; intros acc.
  - exists []. simpl. rewrite app_nil_r. split; [reflexivity|].
    split; [|split; [|constructor]].
    + intros id o. split; [intros H; inversion H | intros (_ & H & _); inversion H].
    + intros id H. inversion H.
  - simpl foldl. destruct (IH (releaseStep b acc v)) as (new & Hlog & Hrel & Hnf & Hnd).
    destruct (releaseStep_cases b acc v)
      as [[Heq Hna] | [(Ha & Hnone & Heq) | (Ha & o' & Hsome & Heq)]];
      rewrite Heq in Hlog, Hrel |- *; cbn [fst snd objects] in Hlog, Hrel.
    + exists new. split; [exact Hlog|]. split; [|split; [|exact Hnd]].
      * intros id o. rewrite Hrel, elem_of_cons. split.
        -- tauto.
        -- intros (Hid & [-> | Hin] & Ho); [contradiction | tauto].
      * intros id Hin. destruct (Hnf id Hin). split; [assumption | right; assumption].
    + exists (NotFound v :: new). split; [rewrite Hlog, <- app_assoc; reflexivity|].
      split; [|split].
      * intros id o. rewrite elem_of_cons, Hrel, elem_of_cons. split.
        -- intros [Hx | ?]; [discriminate | tauto].
        -- intros (Hid & [-> | Hin] & Ho); [congruence | tauto].
      * intros id Hin. apply elem_of_cons in Hin. destruct Hin as [[= ->] | Hin].
        -- split; [assumption | left].
        -- destruct (Hnf id Hin). split; [assumption | right; assumption].
      * exact Hnd.
    + exists (Released v o' :: new). split; [rewrite Hlog, <- app_assoc; reflexivity|].
      split; [|split].
      * intros id o. rewrite elem_of_cons, Hrel, elem_of_cons, lookup_delete_Some.
        split.
        -- intros [[= -> ->] | (Hid & Hin & Hne & Ho)]; [auto | tauto].
        -- intros (Hid & [-> | Hin] & Ho).
           ++ left. congruence.
           ++ destruct (decide (v = id)) as [-> | Hne]; [left; congruence | tauto].
      * intros id Hin. apply elem_of_cons in Hin. destruct Hin as [Hx | Hin]; [discriminate|].
        destruct (Hnf id Hin). split; [assumption | right; assumption].
      * change (NoDup (v :: releasedIDs new)). constructor; [|exact Hnd].
        intros Hin. apply elem_of_releasedIDs in Hin. destruct Hin as [o Hin].
        apply Hrel in Hin. destruct Hin as (_ & _ & Hl).
        rewrite lookup_delete_eq in Hl. discriminate.
Qed.



Lemma releaseAll_no_miss ids acc :
  NoDup ids ->
  (forall k, k ∈ ids -> is_Some (objects acc.1 !! k)) ->
  forall id, NotFound id ∈ (foldl (releaseStep false) acc ids).2 ->
             NotFound id ∈ acc.2.
Proof.
  revert acc. induction ids as [|v ids IH]; intros acc Hnd Hall id; simpl.
  - auto.
  - apply NoDup_cons in Hnd. destruct Hnd as [Hv Hnd].
    destruct (Hall v) as [o Ho]; [left|].
    assert (Hstep : releaseStep false acc v =
              ({| objects := delete v (objects acc.1); next := next acc.1 |},
               acc.2 ++ [Released v o])).
    { destruct acc as [s log]. unfold releaseStep, releaseKey. cbn in *.
      rewrite Ho. reflexivity. }
    rewrite Hstep. intros Hin. apply IH in Hin; [|exact Hnd|].
    + cbn [snd] in Hin. apply elem_of_app in Hin. destruct Hin as [Hin|Hin]; [exact Hin|].
      apply list_elem_of_singleton in Hin. discriminate.
    + intros k Hk. cbn [fst objects]. rewrite lookup_delete_ne.
      * apply Hall. right. exact Hk.
      * intros ->. contradiction.
Qed.

(** X6. [ReleaseAll], in whatever order [range] visits the table: the
    table is empty afterwards and [next] is what it was (the IDs handed
    out before are not handed out again); every object of the table is
    deallocated, each of them once, and no key is reported as missing. *)
Theorem ReleaseAll_empties (order : list Z) (s : InstanceSystem) :
  rangeOrder order s ->
  objects (ReleaseAll order s).1 = ∅
  /\ next (ReleaseAll order s).1 = next s
  /\ (forall id o, Released id o ∈ (ReleaseAll order s).2 <->
        objects s !! id = Some o)
  /\ NoDup (releasedIDs (ReleaseAll order s).2)
  /\ (forall id, NotFound id ∉ (ReleaseAll order s).2).
Proof.
  intros [Hnd Hkeys]. rewrite ReleaseAll_steps.
  destruct (release_fold_state false order (s, [])) as [Hn Hk].
  destruct (release_fold_log false order (s, [])) as (new & Hlog & Hrel & _ & Hndr).
  cbn [fst snd app] in *.
  split; [|split; [exact Hn|split; [|split]]].
  - apply map_empty. intros k. rewrite Hk.
    destruct (decide ((false = true -> k <> 0) /\ k ∈ order)) as [_|Hno]; [reflexivity|].
    destruct (objects s !! k) as [o|] eqn:E; [|reflexivity].
    exfalso. apply Hno. split; [discriminate|]. apply Hkeys. eauto.
  - intros id o. rewrite Hlog, Hrel. split.
    + intros (_ & _ & Ho). exact Ho.
    + intros Ho. split; [discriminate|]. split; [|exact Ho]. apply Hkeys. eauto.
  - rewrite Hlog. exact Hndr.
  - intros id Hin.
    apply (releaseAll_no_miss order (s, []) Hnd) in Hin.
    + inversion Hin.
    + intros k Hkin. apply Hkeys. exact Hkin.
Qed.

Lemma ReleaseAll_empties_witness :
  let s := {| objects := {[ 1 := SetID 1 (fresh "a"); 2 := SetID 2 (fresh "b") ]};
              next := 2 |} in
  rangeOrder [2; 1] s
  /\ objects (ReleaseAll [2; 1] s).1 = ∅.
Proof.
  assert (Hr : rangeOrder [2; 1]
            {| objects := {[ 1 := SetID 1 (fresh "a"); 2 := SetID 2 (fresh "b") ]};
               next := 2 |}).
  { split.
    - apply NoDup_cons. split; [|apply NoDup_singleton].
      intros H. apply list_elem_of_singleton in H. discriminate.
    - intros k. cbn [objects]. rewrite !elem_of_cons, elem_of_nil. split.
      + intros [-> | [-> | []]]; vm_compute; eauto.
      + intros [o Ho].
        destruct (decide (k = 1)) as [->|H1]; [auto|].
        destruct (decide (k = 2)) as [->|H2]; [auto|].
        rewrite lookup_insert_ne, lookup_singleton_ne in Ho by congruence.
        discriminate. }
  split; [exact Hr|].
  exact (proj1 (ReleaseAll_empties [2; 1] _ Hr)).
Defined.





Lemma assignAll_in_consistent fuel os : forall s,
  consistent s ->
  next s + Z.of_nat (length os) <= Int32.MaxInt32 ->
  Forall (fun o => objID o = 0) os ->
  exists os' s',
    assignAll fuel os s = Some (os', s')
    /\ length os' = length os
    /\ next s' = next s + Z.of_nat (length os)
    /\ consistent s'
    /\ (forall id, id <= next s -> objects s' !! id = objects s !! id)
    /\ (forall i o, os !! i = Some o ->
          os' !! i = Some (SetID (next s + 1 + Z.of_nat i) o)
          /\ Get (next s + 1 + Z.of_nat i) s'
               = Found (SetID (next s + 1 + Z.of_nat i) o)).
Proof.
  induction os as [|o os IH]; intros s Hc Hlen Hfresh.
  - exists [], s. simpl. split; [reflexivity|]. split; [reflexivity|].
    split; [lia|]. split; [exact Hc|]. split; [auto|].
    intros i x Hx. rewrite lookup_nil in Hx. discriminate.
  - apply Forall_cons in Hfresh. destruct Hfresh as [Hid Hfresh].
    simpl length in Hlen. rewrite Nat2Z.inj_succ in Hlen.
    destruct (assign_in_consistent fuel s o Hc) as (HA & Hc1 & Hfree);
      [lia | exact Hid|].
    set (k := next s + 1) in *.
    set (s1 := {| objects := <[k := SetID k o]> (objects s); next := k |}) in *.
    destruct (IH s1 Hc1) as (os' & s' & Hall & Hl & Hn & Hc' & Hold & Hget);
      [cbn [next s1]; unfold k; lia | exact Hfresh|].
    cbn [next s1] in Hn, Hold, Hget.
    exists (SetID k o :: os'), s'. cbn [assignAll]. rewrite HA, Hall.
    split; [reflexivity|]. split; [simpl; congruence|].
    split; [simpl length; rewrite Nat2Z.inj_succ; unfold k in Hn; lia|].
    split; [exact Hc'|]. split.
    + intros id Hle. rewrite Hold by (unfold k; lia).
      cbn [objects s1]. apply lookup_insert_ne. unfold k. lia.
    + intros [|i] x Hx; simpl in Hx.
      * injection Hx as <-. rewrite Z.add_0_r. fold k. split; [reflexivity|].
        unfold Get. rewrite Hold by lia. cbn [objects s1].
        rewrite lookup_insert_eq. reflexivity.
      * destruct (Hget i x Hx) as [H1 H2].
        replace (k + Z.of_nat (S i)) with (k + 1 + Z.of_nat i) by lia.
        split; [exact H1 | exact H2].
Qed.

(** X8. Assigning a list of objects with ID 0 to a consistent system, as
    long as the counter stays within [MaxInt32]: every call succeeds,
    the [i]-th object (from 0) gets the ID [next + 1 + i], so the IDs
    are consecutive and distinct, [Get] finds each object under its ID
    at the end, and entries that were there before are untouched. From
    a new system the IDs are 1, 2, 3, ... *)
Theorem assignAll_consecutive (fuel : nat) (os : list Object) (s : InstanceSystem) :
  consistent s ->
  next s + Z.of_nat (length os) <= Int32.MaxInt32 ->
  Forall (fun o => objID o = 0) os ->
  exists os' s',
    assignAll fuel os s = Some (os', s')
    /\ next s' = next s + Z.of_nat (length os)
    /\ consistent s'
    /\ (forall id, id <= next s -> Get id s' = Get id s)
    /\ (forall i o, os !! i = Some o ->
          os' !! i = Some (SetID (next s + 1 + Z.of_nat i) o)
          /\ Get (next s + 1 + Z.of_nat i) s'
               = Found (SetID (next s + 1 + Z.of_nat i) o)).
Proof.
  intros Hc Hlen Hfresh.
  destruct (assignAll_in_consistent fuel os s Hc Hlen Hfresh)
    as (os' & s' & Hall & _ & Hn & Hc' & Hold & Hget).
  exists os', s'. split; [exact Hall|]. split; [exact Hn|]. split; [exact Hc'|].
  split; [|exact Hget].
  intros id Hle. unfold Get. rewrite Hold by exact Hle. reflexivity.
Qed.

Lemma assignAll_consecutive_witness :
  (consistent NewInstanceSystem
   /\ next NewInstanceSystem + Z.of_nat (length [fresh "a"; fresh "b"; fresh "c"])
        <= Int32.MaxInt32
   /\ Forall (fun o => objID o = 0) [fresh "a"; fresh "b"; fresh "c"])
  /\ exists os' s',
       assignAll 0 [fresh "a"; fresh "b"; fresh "c"] NewInstanceSystem
         = Some (os', s')
       /\ next s' = 3.
Proof.
  assert (Hc : consistent NewInstanceSystem).
  { split; [reflexivity|]. split; [cbn; rewrite map_size_empty; reflexivity|].
    intros id o H. cbn in H. rewrite lookup_empty in H. discriminate. }
  assert (Hl : next NewInstanceSystem
               + Z.of_nat (length [fresh "a"; fresh "b"; fresh "c"])
               <= Int32.MaxInt32) by (vm_compute; discriminate).
  assert (Hf : Forall (fun o => objID o = 0) [fresh "a"; fresh "b"; fresh "c"])
    by (repeat constructor).
  split; [split; [exact Hc | split; [exact Hl | exact Hf]]|].
  destruct (assignAll_consecutive 0 [fresh "a"; fresh "b"; fresh "c"]
              NewInstanceSystem Hc Hl Hf) as (os' & s' & HA & Hn & _).
  exists os', s'. split; [exact HA | exact Hn].
Defined.

End InstanceFacts.

(** ** The camera *)

Module CameraFacts.
Import Scene.

(** *** Background clear *)

(** C8. With clear mode [ClearModeNothing], [clearBackground] returns at
    once: no call reaches the graphics layer and the camera and the
    context, with the contents of every texture, are what they were. *)
Theorem clearBackground_nothing (w : World) :
  clearMode (cam w) = ClearModeNothing ->
  clearBackground w = w
  /\ calls (gl (clearBackground w)) = calls (gl w)
  /\ draws (gl (clearBackground w)) = draws (gl w)
  /\ forall t, pixels (gl (clearBackground w)) t = pixels (gl w) t.
Proof.
  intros Hmode. unfold clearBackground. rewrite Hmode. auto.
Qed.

Lemma clearBackground_nothing_witness :
  let w := worldOf (SetClearMode ClearModeNothing
                      (newCamera None RenderPathForward false)) in
  clearMode (cam w) = ClearModeNothing
  /\ clearBackground w = w.
Proof.
  split; [reflexivity|].
  apply (clearBackground_nothing
           (worldOf (SetClearMode ClearModeNothing
                       (newCamera None RenderPathForward false)))).
  reflexivity.
Defined.

Lemma writeTo_target targets img px t :
  t ∈ targets -> writeTo targets img px t = img.
Proof. intros H. unfold writeTo. rewrite bool_decide_eq_true_2; done. Qed.

Lemma writeTo_other targets img px t :
  t ∉ targets -> writeTo targets img px t = px t.
Proof. intros H. unfold writeTo. rewrite bool_decide_eq_false_2; done. Qed.

(** What the skybox draw leaves in the camera's textures. *)
Lemma clearBackground_skybox_pixels (w : World) (sky : Skybox) :
  clearMode (cam w) = ClearModeSkybox ->
  skybox (cam w) = Some sky ->
  pixels (gl (clearBackground w)) =
    writeTo (attachedAt (attachments (cam w)) (drawBuffers (gl w)))
      (SkyboxView (CubemapData (Specular sky))
         (Some (removeTranslation (viewMatrix (cam w))))
         (Some (removeTranslation (projectionMatrix (cam w)))))
      (pixels (gl (framebufferClearBuffers w))).
Proof.
  intros Hmode Hsky. unfold clearBackground. rewrite Hmode.
  cbn [framebufferClearBuffers withGL cam]. rewrite Hsky.
  vm_compute. reflexivity.
Qed.

(** C7. With clear mode [ClearModeSkybox], [clearBackground] clears the
    framebuffer's buffers; without a skybox it does nothing more; with
    one it makes a single draw of the skybox mesh under the skybox
    shader, with the skybox's specular cubemap on texture unit 0 and the
    camera's view and projection matrices as uniforms, and what lands in
    the draw targets is the cubemap seen through those two matrices with
    their translation removed. *)
Theorem clearBackground_skybox (w : World) :
  clearMode (cam w) = ClearModeSkybox ->
  let sh := CameraProgram CameraShaderSkybox in
  let w' := clearBackground w in
  match skybox (cam w) with
  | None => w' = framebufferClearBuffers w
  | Some sky =>
      calls (gl w') =
        calls (gl w) ++
        [ClearBuffers;
         MeshBind CameraMeshSkybox;
         ShaderBind sh;
         ActivateTexture (Cubemap (Specular sky)) TEXTURE0;
         SetUniform sh "v_view_matrix" (viewMatrix (cam w));
         SetUniform sh "v_projection_matrix" (projectionMatrix (cam w));
         MeshDraw CameraMeshSkybox;
         ShaderUnbind sh;
         MeshUnbind CameraMeshSkybox]
      /\ draws (gl w') =
           draws (gl w) ++
           [{| drawProgram := Some sh;
               drawRead := Some (Cubemap (Specular sky));
               drawSlots := drawBuffers (gl w);
               drawWritten :=
                 attachedAt (attachments (cam w)) (drawBuffers (gl w)) |}]
      /\ forall t,
           t ∈ attachedAt (attachments (cam w)) (drawBuffers (gl w)) ->
           pixels (gl w') t =
             SkyboxView (CubemapData (Specular sky))
               (Some (removeTranslation (viewMatrix (cam w))))
               (Some (removeTranslation (projectionMatrix (cam w))))
  end.
Proof.
  intros Hmode sh w'. subst w'.
  destruct (skybox (cam w)) as [sky|] eqn:Hsky.
  - split; [|split].
    + unfold clearBackground. rewrite Hmode.
      cbn [framebufferClearBuffers withGL cam]. rewrite Hsky.
      cbn. rewrite <- !app_assoc. reflexivity.
    + unfold clearBackground. rewrite Hmode.
      cbn [framebufferClearBuffers withGL cam]. rewrite Hsky. reflexivity.
    + intros t Ht.
      rewrite (clearBackground_skybox_pixels w sky Hmode Hsky).
      apply writeTo_target. exact Ht.
  - unfold clearBackground. rewrite Hmode.
    cbn [framebufferClearBuffers withGL cam]. rewrite Hsky. reflexivity.
Qed.

Lemma clearBackground_skybox_witness :
  let w := worldOf (SetViewMatrix translated4
                      (newCamera (Some {| Specular := 7; Irradiance := 8 |})
                         RenderPathForward false)) in
  let w' := clearBackground (framebufferApplyDrawBuffers [COLOR_ATTACHMENT0] w) in
  clearMode (cam w) = ClearModeSkybox
  /\ pixels (gl w') CameraTextureLDR0 =
       SkyboxView (CubemapData 7) (Some identity4) (Some identity4).
Proof.
  split; [reflexivity|].
  pose proof (clearBackground_skybox
    (framebufferApplyDrawBuffers [COLOR_ATTACHMENT0]
       (worldOf (SetViewMatrix translated4
                   (newCamera (Some {| Specular := 7; Irradiance := 8 |})
                      RenderPathForward false)))) eq_refl) as H.
  cbv zeta in H. cbn [skybox cam] in H.
  destruct H as (_ & _ & H).
  rewrite (H CameraTextureLDR0); [reflexivity|].
  vm_compute. left.
Defined.

(** *** Construction *)

Lemma setupPipeline_Built env c c' :
  setupPipeline env c = Done c' -> Built c' /\ hdr c' = hdr c.
Proof.
  unfold setupPipeline, Built. intros H.
  destruct (framebufferAlloc env); [discriminate|].
  destruct (renderPath c).
  - injection H as <-. split; reflexivity.
  - destruct (gbufferAlloc env); [discriminate|].
    injection H as <-. split; reflexivity.
Qed.

Lemma newCamera_Built sky path h : Built (newCamera sky path h) /\ hdr (newCamera sky path h) = h.
Proof. destruct path, h; split; reflexivity. Qed.

(** C9. When the framebuffer's [Alloc] returns an error, or the render
    path is deferred and the G-buffer's [Alloc] returns one,
    [setupPipeline] panics with that error: it returns no camera, and
    [NewCamera], which has passed [MustAssign], panics with it too. *)
Theorem setupPipeline_alloc_failure_panics (env : Env) (c : Camera) (err : string) :
  framebufferAlloc env = Some err
  \/ (framebufferAlloc env = None
      /\ renderPath c = RenderPathDeferred
      /\ gbufferAlloc env = Some err) ->
  setupPipeline env c = Panicked err
  /\ (mustAssign env = None ->
      NewCamera env (renderPath c) (hdr c) = Panicked err).
Proof.
  intros H.
  assert (Hpanic : forall c0, renderPath c0 = renderPath c ->
                     setupPipeline env c0 = Panicked err).
  { intros c0 Hpath. unfold setupPipeline.
    destruct H as [Hfb | (Hfb & Hdef & Hgb)].
    - rewrite Hfb. reflexivity.
    - rewrite Hfb, Hpath, Hdef, Hgb. reflexivity. }
  split.
  - apply Hpanic. reflexivity.
  - intros Hassign. unfold NewCamera. rewrite Hassign.
    rewrite Hpanic by reflexivity. reflexivity.
Qed.

Lemma setupPipeline_alloc_failure_panics_witness :
  let env := {| mustAssign := None; framebufferAlloc := None;
                gbufferAlloc := Some "out of memory";
                windowProjection := identity4; environmentSkybox := None |} in
  let c := blankCamera env RenderPathDeferred true in
  (framebufferAlloc env = Some "out of memory"
   \/ (framebufferAlloc env = None
       /\ renderPath c = RenderPathDeferred
       /\ gbufferAlloc env = Some "out of memory"))
  /\ setupPipeline env c = Panicked "out of memory".
Proof.
  split.
  - right. repeat split; reflexivity.
  - exact (proj1 (setupPipeline_alloc_failure_panics
             {| mustAssign := None; framebufferAlloc := None;
                gbufferAlloc := Some "out of memory";
                windowProjection := identity4; environmentSkybox := None |}
             (blankCamera
                {| mustAssign := None; framebufferAlloc := None;
                   gbufferAlloc := Some "out of memory";
                   windowProjection := identity4; environmentSkybox := None |}
                RenderPathDeferred true)
             "out of memory"
             (or_intror (conj eq_refl (conj eq_refl eq_refl))))).
Defined.

(** *** The classification cache *)

Lemma classify_foldl (ds : list Component) (c : Camera) :
  let c' :=
    foldl (fun c d =>
             if SupportsDeferred d
             then setCaches (deferredCache c ++ [d]) (forwardCache c) c
             else setCaches (deferredCache c) (forwardCache c ++ [d]) c)
          c ds in
  deferredCache c' =
    deferredCache c ++ filter (fun d => SupportsDeferred d = true) ds
  /\ forwardCache c' =
    forwardCache c ++ filter (fun d => SupportsDeferred d = false) ds.
Proof.
  revert c. induction ds as [|d ds IH]; intros c; cbn zeta.
  - simpl. rewrite !app_nil_r. auto.
  - simpl foldl. specialize (IH
      (if SupportsDeferred d
       then setCaches (deferredCache c ++ [d]) (forwardCache c) c
       else setCaches (deferredCache c) (forwardCache c ++ [d]) c)).
    cbn zeta in IH. destruct IH as [IHd IHf]. rewrite IHd, IHf.
    rewrite !filter_cons. destruct (SupportsDeferred d) eqn:Hd; simpl.
    + rewrite <- app_assoc. split; reflexivity.
    + rewrite <- app_assoc. split; reflexivity.
Qed.

(** C6. Whatever the two caches held, after [OnSceneGraphUpdate] they
    hold the drawable components of the scene and nothing else. On the
    forward path all of them are in the forward cache and the deferred
    cache is empty; on the deferred path the deferred cache holds those
    that support the deferred pass and the forward cache the others, in
    scene order. Either way a drawable component is in exactly one of
    the two caches. *)
Theorem OnSceneGraphUpdate_classifies (components : list Component) (c : Camera) :
  let drawables := filter (fun x => isDrawable x = true) components in
  let c' := OnSceneGraphUpdate components c in
  (renderPath c = RenderPathForward ->
     forwardCache c' = drawables /\ deferredCache c' = [])
  /\ (renderPath c = RenderPathDeferred ->
     deferredCache c' = filter (fun d => SupportsDeferred d = true) drawables
     /\ forwardCache c' = filter (fun d => SupportsDeferred d = false) drawables)
  /\ (forall d, d ∈ forwardCache c' ++ deferredCache c' ->
        d ∈ components /\ isDrawable d = true)
  /\ (forall d, d ∈ components -> isDrawable d = true ->
        (d ∈ forwardCache c' /\ d ∉ deferredCache c')
        \/ (d ∈ deferredCache c' /\ d ∉ forwardCache c'))
  /\ (renderPath c = RenderPathDeferred ->
      forall d, d ∈ components -> isDrawable d = true ->
        (d ∈ deferredCache c' <-> SupportsDeferred d = true)).
Proof.
  intros drawables c'.
  assert (Hfwd : renderPath c = RenderPathForward ->
                 forwardCache c' = drawables /\ deferredCache c' = []).
  { intros Hp. subst c'. unfold OnSceneGraphUpdate. cbn. rewrite Hp.
    split; reflexivity. }
  assert (Hdef : renderPath c = RenderPathDeferred ->
     deferredCache c' = filter (fun d => SupportsDeferred d = true) drawables
     /\ forwardCache c' = filter (fun d => SupportsDeferred d = false) drawables).
  { intros Hp. subst c'. unfold OnSceneGraphUpdate. cbn. rewrite Hp.
    apply (classify_foldl drawables
             (setCaches [] [] (setCaches [] (forwardCache c) c))). }
  split; [exact Hfwd|]. split; [exact Hdef|].
  assert (Hdr : forall d, d ∈ drawables <-> d ∈ components /\ isDrawable d = true).
  { intros d. subst drawables. rewrite list_elem_of_filter. tauto. }
  destruct (renderPath c) eqn:Hp.
  - destruct (Hfwd eq_refl) as [Hf Hd]. rewrite Hf, Hd.
    split; [|split].
    + intros d. rewrite app_nil_r. apply Hdr.
    + intros d Hin His. left. split; [apply Hdr; auto | apply not_elem_of_nil].
    + discriminate.
  - destruct (Hdef eq_refl) as [Hd Hf]. rewrite Hf, Hd.
    split; [|split].
    + intros d. rewrite elem_of_app, !list_elem_of_filter, Hdr. tauto.
    + intros d Hin His. rewrite !list_elem_of_filter, !Hdr.
      destruct (SupportsDeferred d); [right | left]; split; try tauto;
        intros [Hx _]; discriminate.
    + intros _ d Hin His. rewrite list_elem_of_filter, Hdr. tauto.
Qed.

Lemma OnSceneGraphUpdate_classifies_witness :
  let mesh := {| componentID := 1; isDrawable := true; SupportsDeferred := true |} in
  let text := {| componentID := 2; isDrawable := true; SupportsDeferred := false |} in
  let script := {| componentID := 3; isDrawable := false; SupportsDeferred := false |} in
  let c := newCamera None RenderPathDeferred true in
  renderPath c = RenderPathDeferred
  /\ deferredCache (OnSceneGraphUpdate [mesh; script; text] c) = [mesh]
  /\ forwardCache (OnSceneGraphUpdate [mesh; script; text] c) = [text].
Proof.
  split; [reflexivity|].
  exact (proj1 (proj2 (OnSceneGraphUpdate_classifies
    [ {| componentID := 1; isDrawable := true; SupportsDeferred := true |};
      {| componentID := 3; isDrawable := false; SupportsDeferred := false |};
      {| componentID := 2; isDrawable := true; SupportsDeferred := false |} ]
    (newCamera None RenderPathDeferred true))) eq_refl).
Defined.

(** *** The sub-pass operation *)

Lemma slot_attached_hdr t : pipelineAttachments true (slot t) = Some t.
Proof. destruct t; reflexivity. Qed.

Lemma slot_attached_ldr t :
  t <> CameraTextureHDR0 -> t <> CameraTextureHDR1 ->
  pipelineAttachments false (slot t) = Some t.
Proof. destruct t; intros H0 H1; try reflexivity; congruence. Qed.

Lemma Built_attachments c :
  Built c -> attachments c = pipelineAttachments (hdr c).
Proof. unfold Built, attachments. intros ->. reflexivity. Qed.

Lemma EffectPass_cam w :
  cam (EffectPass w) = setEffectPass (Int32.add (effectPass (cam w)) 1) (cam w).
Proof.
  unfold EffectPass.
  destruct (effectActiveType (cam w));
    try destruct (Int32.rem (effectPass (cam w)) 2 =? 1); reflexivity.
Qed.

(** C3. In the HDR or the LDR domain, with the counter at a value a run
    of sub-passes reaches without overflow: on an odd counter
    [EffectPass] leaves the domain's secondary texture on unit 0 and the
    primary's attachment point as the draw buffer, on an even counter
    the primary texture and the secondary's attachment point; it makes
    its calls in the order bind texture, select draw buffer, bind mesh,
    draw, unbind mesh, with exactly one draw that reads and writes as
    selected; and the counter goes up by one. *)
Theorem EffectPass_ping_pong (w : World) (prim sec : CameraTexture) :
  primary (effectActiveType (cam w)) = Some prim ->
  secondary (effectActiveType (cam w)) = Some sec ->
  0 <= effectPass (cam w) < Int32.MaxInt32 ->
  let p := effectPass (cam w) in
  let w' := EffectPass w in
  (Z.odd p = true ->
     boundTexture (gl w') = Some (CameraTex sec)
     /\ drawBuffers (gl w') = [slot prim])
  /\ (Z.even p = true ->
     boundTexture (gl w') = Some (CameraTex prim)
     /\ drawBuffers (gl w') = [slot sec])
  /\ (exists t, boundTexture (gl w') = Some t
      /\ calls (gl w') =
           calls (gl w) ++
           [ActivateTexture t TEXTURE0;
            ApplyDrawBuffers (drawBuffers (gl w'));
            MeshBind CameraMeshEffect;
            MeshDraw CameraMeshEffect;
            MeshUnbind CameraMeshEffect])
  /\ (exists d, draws (gl w') = draws (gl w) ++ [d]
      /\ drawRead d = boundTexture (gl w')
      /\ drawSlots d = drawBuffers (gl w'))
  /\ effectPass (cam w') = p + 1.
Proof.
  intros Hprim Hsec Hrange p w'. subst p w'.
  rewrite EffectPass_cam. cbn [effectPass setEffectPass].
  rewrite Int32Facts.succ_small by exact Hrange.
  unfold EffectPass.
  rewrite Int32Facts.rem2_odd by lia.
  rewrite <- Z.negb_odd.
  destruct (effectActiveType (cam w)); simpl in Hprim, Hsec;
    try discriminate; injection Hprim as <-; injection Hsec as <-;
    destruct (Z.odd (effectPass (cam w))); cbn;
    (split; [intros ?; try discriminate; split; reflexivity|]);
    (split; [intros ?; try discriminate; split; reflexivity|]);
    (split; [eexists; split; [reflexivity|];
             rewrite <- !app_assoc; reflexivity|]);
    (split; [eexists; split; [reflexivity|split; reflexivity]|]);
    reflexivity.
Qed.

Lemma EffectPass_ping_pong_witness :
  let w := startEffectPass
             (withCam (setEffectActiveType EffectTypeHDR)
                (worldOf (newCamera None RenderPathForward true))) in
  let w1 := EffectPass w in
  (primary (effectActiveType (cam w1)) = Some CameraTextureHDR0
   /\ secondary (effectActiveType (cam w1)) = Some CameraTextureHDR1
   /\ 0 <= effectPass (cam w1) < Int32.MaxInt32)
  /\ (Z.odd (effectPass (cam w1)) = true ->
      boundTexture (gl (EffectPass w1)) = Some (CameraTex CameraTextureHDR1)
      /\ drawBuffers (gl (EffectPass w1)) = [slot CameraTextureHDR0]).
Proof.
  split.
  - split; [reflexivity|]. split; [reflexivity|]. vm_compute. split; [discriminate | reflexivity].
  - refine (proj1 (EffectPass_ping_pong
      (EffectPass (startEffectPass
         (withCam (setEffectActiveType EffectTypeHDR)
            (worldOf (newCamera None RenderPathForward true)))))
      CameraTextureHDR0 CameraTextureHDR1 eq_refl eq_refl _)).
    vm_compute. split; [discriminate | reflexivity].
Defined.

(** *** Runs of sub-passes *)

Lemma startEffectPass_inEffect w :
  Built (cam w) ->
  inEffect (effectActiveType (cam w)) (startEffectPass w)
  /\ draws (gl (startEffectPass w)) = draws (gl w)
  /\ effectPass (cam (startEffectPass w)) = 0
  /\ hdr (cam (startEffectPass w)) = hdr (cam w).
Proof.
  intros HB. unfold startEffectPass, inEffect. cbn.
  destruct (effectActiveType (cam w)) eqn:Ht; cbn; rewrite ?Ht;
    repeat split; try exact HB; try reflexivity; discriminate.
Qed.

Lemma not_in_singleton (a b : CameraTexture) : a <> b -> a ∉ [b].
Proof. intros Hne Hin. apply list_elem_of_singleton in Hin. contradiction. Qed.

Lemma EffectPass_inEffect t p w :
  inEffect t w ->
  let w' := EffectPass (shaderBind p w) in
  inEffect t w'
  /\ hdr (cam w') = hdr (cam w)
  /\ exists d, draws (gl w') = draws (gl w) ++ [d] /\ noAlias d.
Proof.
  intros (HB & Ht & Htone). cbn zeta.
  split; [|split].
  - unfold inEffect. rewrite EffectPass_cam. cbn.
    split; [exact HB|]. split; [exact Ht|].
    intros ->. destruct (Htone eq_refl) as [Hb Hd].
    unfold EffectPass. cbn. rewrite Ht. cbn. auto.
  - rewrite EffectPass_cam. reflexivity.
  - unfold EffectPass. cbn [cam shaderBind withGL].
    rewrite Ht.
    destruct t;
      [ destruct (Int32.rem (effectPass (cam w)) 2 =? 1)
      | destruct (Int32.rem (effectPass (cam w)) 2 =? 1)
      | destruct (Htone eq_refl) as [Hb Hd] ];
      cbn; rewrite ?Hb, ?Hd; cbn;
      rewrite (Built_attachments _ HB);
      (eexists; split; [reflexivity|]);
      unfold noAlias; cbn; eexists; (split; [reflexivity|]);
      destruct (hdr (cam w)); cbn;
      first [ apply not_elem_of_nil | apply not_in_singleton; discriminate ].
Qed.

Lemma subPasses_inEffect t id n w :
  inEffect t w ->
  inEffect t (subPasses id n w)
  /\ hdr (cam (subPasses id n w)) = hdr (cam w)
  /\ exists ds, draws (gl (subPasses id n w)) = draws (gl w) ++ ds
       /\ length ds = n /\ Forall noAlias ds.
Proof.
  intros Hin. induction n as [|n (IHin & IHhdr & ds & IHd & IHlen & IHall)].
  - simpl. split; [exact Hin|]. split; [reflexivity|].
    exists []. rewrite app_nil_r. repeat split. constructor.
  - simpl subPasses.
    destruct (EffectPass_inEffect t (EffectProgram id n) _ IHin)
      as (Hin' & Hhdr' & d & Hd & Hna).
    split; [exact Hin'|]. split; [congruence|].
    exists (ds ++ [d]). split; [|split].
    + rewrite Hd, IHd, <- app_assoc. reflexivity.
    + rewrite length_app, IHlen. simpl. lia.
    + apply Forall_app. split; [exact IHall|]. constructor; [exact Hna|constructor].
Qed.

(** C2. On a camera built by [setupPipeline], an effect that runs any
    number of sub-passes after [startEffectPass] makes that many draws,
    and not one of them writes the texture it samples; this holds in
    either domain (and under the tonemapper), and for counters of any
    value, overflow included. *)
Theorem sub_passes_never_alias (w : World) (e : Effect) :
  Built (cam w) ->
  exists ds,
    draws (gl (Render e (startEffectPass w))) = draws (gl w) ++ ds
    /\ length ds = effectSubPasses e
    /\ Forall noAlias ds.
Proof.
  intros HB.
  destruct (startEffectPass_inEffect w HB) as (Hin & Hdraws & _ & _).
  destruct (subPasses_inEffect _ (effectID e) (effectSubPasses e) _ Hin)
    as (_ & _ & ds & Hd & Hlen & Hall).
  exists ds. unfold Render. rewrite Hd, Hdraws. auto.
Qed.

Lemma sub_passes_never_alias_witness :
  let w := withCam (setEffectActiveType EffectTypeLDR)
             (worldOf (newCamera None RenderPathForward false)) in
  Built (cam w)
  /\ exists ds,
       draws (gl (Render (vignette 3) (startEffectPass w))) = draws (gl w) ++ ds
       /\ length ds = 3%nat
       /\ Forall noAlias ds.
Proof.
  split; [reflexivity|].
  exact (sub_passes_never_alias
           (withCam (setEffectActiveType EffectTypeLDR)
              (worldOf (newCamera None RenderPathForward false)))
           (vignette 3) eq_refl).
Defined.

(** *** The loop over the effects *)

Lemma sameRig_refl c : sameRig c c.
Proof. split; reflexivity. Qed.

Lemma sameRig_trans c1 c2 c3 : sameRig c1 c2 -> sameRig c2 c3 -> sameRig c1 c3.
Proof. intros [H1 H2] [H3 H4]. split; congruence. Qed.

Lemma sameRig_Built c c' : sameRig c c' -> Built c -> Built c'.
Proof. unfold Built. intros [Hf Hh] HB. rewrite Hf, Hh. exact HB. Qed.

Lemma startEffectPass_cam w : cam (startEffectPass w) = setEffectPass 0 (cam w).
Proof. unfold startEffectPass. cbn. destruct (effectActiveType (cam w)); reflexivity. Qed.

Lemma endEffectPass_cam w : cam (endEffectPass w) = cam w.
Proof.
  unfold endEffectPass.
  destruct (hdr (cam w)); cbn;
    destruct (decide (effectActiveType (cam w) = EffectTypeTonemapper)); try reflexivity;
    destruct (Int32.rem (effectPass (cam w)) 2 =? 1); try reflexivity;
    cbn; destruct (decide (effectActiveType (cam w) = EffectTypeHDR)); reflexivity.
Qed.

Lemma subPasses_cam id n w :
  sameRig (cam w) (cam (subPasses id n w))
  /\ effectActiveType (cam (subPasses id n w)) = effectActiveType (cam w).
Proof.
  induction n as [|n [IHr IHt]]; cbn [subPasses].
  - split; [apply sameRig_refl | reflexivity].
  - rewrite EffectPass_cam. split; [exact IHr | exact IHt].
Qed.

(** One effect between [startEffectPass] and [endEffectPass]. *)
Lemma effect_cam e w :
  let w' := endEffectPass (Render e (startEffectPass w)) in
  sameRig (cam w) (cam w')
  /\ effectActiveType (cam w') = effectActiveType (cam w).
Proof.
  cbn zeta. rewrite endEffectPass_cam. unfold Render.
  destruct (subPasses_cam (effectID e) (effectSubPasses e) (startEffectPass w))
    as [Hr Ht].
  rewrite startEffectPass_cam in Hr, Ht. cbn in Hr, Ht.
  split; [|exact Ht].
  destruct Hr as [Hf Hh]. split; assumption.
Qed.

Lemma hdrStep_cam w e :
  sameRig (cam w) (cam (hdrStep w e))
  /\ effectActiveType (cam (hdrStep w e)) =
       if decide (effectType e = EffectTypeTonemapper)
       then EffectTypeLDR else effectActiveType (cam w).
Proof.
  unfold hdrStep. destruct (decide (effectType e = EffectTypeTonemapper)).
  - cbn zeta.
    destruct (effect_cam e (withCam (setEffectActiveType EffectTypeTonemapper) w))
      as [[Hf Hh] _].
    cbn zeta in Hf, Hh. split; [split|]; [exact Hf | exact Hh | reflexivity].
  - apply effect_cam.
Qed.

Lemma hdrLoop_cam es w :
  sameRig (cam w) (cam (foldl hdrStep w es))
  /\ (effectActiveType (cam w) = EffectTypeLDR ->
      effectActiveType (cam (foldl hdrStep w es)) = EffectTypeLDR).
Proof.
  revert w. induction es as [|e es IH]; intros w; simpl.
  - split; [apply sameRig_refl | auto].
  - destruct (IH (hdrStep w e)) as [IHr IHt].
    destruct (hdrStep_cam w e) as [Hr Ht].
    split; [exact (sameRig_trans _ _ _ Hr IHr)|].
    intros HL. apply IHt. rewrite Ht, HL.
    destruct (decide (effectType e = EffectTypeTonemapper)); reflexivity.
Qed.

(** Under the tonemapper a sub-pass leaves the bindings alone: it binds
    the mesh, draws and unbinds. *)
Lemma EffectPass_tonemapper w :
  effectActiveType (cam w) = EffectTypeTonemapper ->
  boundTexture (gl (EffectPass w)) = boundTexture (gl w)
  /\ drawBuffers (gl (EffectPass w)) = drawBuffers (gl w)
  /\ calls (gl (EffectPass w)) =
       calls (gl w) ++
       [MeshBind CameraMeshEffect; MeshDraw CameraMeshEffect;
        MeshUnbind CameraMeshEffect]
  /\ draws (gl (EffectPass w)) =
       draws (gl w) ++
       [{| drawProgram := program (gl w); drawRead := boundTexture (gl w);
           drawSlots := drawBuffers (gl w);
           drawWritten := attachedAt (attachments (cam w)) (drawBuffers (gl w)) |}].
Proof.
  intros Ht. unfold EffectPass. rewrite Ht. cbn.
  rewrite <- !app_assoc. auto.
Qed.

Lemma subPasses_tonemapper id n w :
  inEffect EffectTypeTonemapper w ->
  boundTexture (gl (subPasses id n w)) = Some (CameraTex CameraTextureHDR0)
  /\ drawBuffers (gl (subPasses id n w)) = [slot CameraTextureLDR0]
  /\ inEffect EffectTypeTonemapper (subPasses id n w)
  /\ exists ds, draws (gl (subPasses id n w)) = draws (gl w) ++ ds
       /\ length ds = n /\ Forall converts ds.
Proof.
  intros Hin. induction n as [|n (IHb & IHd & IHin & ds & IHds & IHlen & IHall)].
  - simpl. destruct Hin as (HB & Ht & Htone).
    destruct (Htone eq_refl) as [Hb Hd].
    split; [exact Hb|]. split; [exact Hd|]. split; [split; auto|].
    exists []. rewrite app_nil_r. repeat split. constructor.
  - simpl subPasses.
    destruct (EffectPass_inEffect _ (EffectProgram id n) _ IHin) as (Hin' & _ & _).
    destruct IHin as (HB & Ht & _).
    destruct (EffectPass_tonemapper
                (shaderBind (EffectProgram id n) (subPasses id n w)) Ht)
      as (Eb & Ed & _ & Edraws).
    cbn [gl cam shaderBind withGL record setProgram boundTexture drawBuffers
         draws program] in Eb, Ed, Edraws.
    rewrite Eb, Ed. split; [exact IHb|]. split; [exact IHd|].
    split; [exact Hin'|].
    eexists (ds ++ [_]). split; [|split].
    + rewrite Edraws, IHds, <- app_assoc. reflexivity.
    + rewrite length_app, IHlen. simpl. lia.
    + apply Forall_app. split; [exact IHall|].
      constructor; [|constructor].
      unfold converts. cbn. rewrite IHb, IHd.
      rewrite (Built_attachments _ HB).
      repeat split. destruct (hdr (cam (subPasses id n w))); reflexivity.
Qed.

Lemma effectLoop_hdr es w :
  hdr (cam w) = true ->
  effectLoop es w =
    foldl hdrStep (withCam (setEffectActiveType EffectTypeHDR) w) es.
Proof. intros H. unfold effectLoop. rewrite H. reflexivity. Qed.

(** C4. On a built HDR camera, when the loop of [renderEffects] reaches
    a tonemapper-typed effect: [startEffectPass] leaves the HDR-primary
    texture on unit 0 and the LDR-primary attachment point as the draw
    buffer; each of its sub-passes binds nothing (mesh bind, draw, mesh
    unbind), reads the HDR-primary texture and writes the LDR-primary
    one; [endEffectPass] makes no draw; and the active type is LDR when
    the effect is done and whenever the loop reaches a later effect,
    which, unless it is a tonemapper itself, runs all its sub-passes
    with the active type LDR. *)
Theorem tonemapper_effect (w : World) (pre post : list Effect) (t : Effect) :
  hdr (cam w) = true ->
  Built (cam w) ->
  effectType t = EffectTypeTonemapper ->
  let w0 := effectLoop pre w in
  let ws := startEffectPass
              (withCam (setEffectActiveType EffectTypeTonemapper) w0) in
  let wr := Render t ws in
  let we := withCam (setEffectActiveType EffectTypeLDR) (endEffectPass wr) in
  effectLoop (pre ++ t :: post) w = foldl hdrStep we post
  /\ (boundTexture (gl ws) = Some (CameraTex CameraTextureHDR0)
      /\ drawBuffers (gl ws) = [slot CameraTextureLDR0])
  /\ (forall k,
        let wk := shaderBind (EffectProgram (effectID t) k)
                    (subPasses (effectID t) k ws) in
        calls (gl (EffectPass wk)) =
          calls (gl wk) ++
          [MeshBind CameraMeshEffect; MeshDraw CameraMeshEffect;
           MeshUnbind CameraMeshEffect])
  /\ (exists ds, draws (gl wr) = draws (gl w0) ++ ds
        /\ length ds = effectSubPasses t
        /\ Forall converts ds)
  /\ draws (gl (endEffectPass wr)) = draws (gl wr)
  /\ effectActiveType (cam we) = EffectTypeLDR
  /\ (forall mid e rest, post = mid ++ e :: rest ->
        let wm := foldl hdrStep we mid in
        effectLoop (pre ++ t :: mid) w = wm
        /\ effectActiveType (cam wm) = EffectTypeLDR
        /\ (effectType e <> EffectTypeTonemapper ->
            hdrStep wm e = endEffectPass (Render e (startEffectPass wm))
            /\ forall k,
                 effectActiveType
                   (cam (subPasses (effectID e) k (startEffectPass wm)))
                 = EffectTypeLDR)).
Proof.
  intros Hhdr HB Htype w0 ws wr we.
  assert (Hstep : hdrStep w0 t = we).
  { unfold hdrStep. rewrite decide_True by exact Htype. reflexivity. }
  assert (Hloop : forall l, effectLoop (pre ++ t :: l) w = foldl hdrStep we l).
  { intros l. rewrite effectLoop_hdr by exact Hhdr.
    rewrite foldl_app. simpl. rewrite <- (effectLoop_hdr pre w Hhdr).
    fold w0. rewrite Hstep. reflexivity. }
  assert (HB0 : Built (cam w0)).
  { subst w0. rewrite effectLoop_hdr by exact Hhdr.
    eapply sameRig_Built; [apply hdrLoop_cam | exact HB]. }
  destruct (startEffectPass_inEffect
              (withCam (setEffectActiveType EffectTypeTonemapper) w0) HB0)
    as (Hin & Hds & _ & _).
  cbn [cam withCam effectActiveType setEffectActiveType] in Hin. fold ws in Hin, Hds.
  destruct (subPasses_tonemapper (effectID t) (effectSubPasses t) ws Hin)
    as (_ & _ & Hinr & ds & Hdraws & Hlen & Hall).
  fold (Render t ws) in Hinr, Hdraws. fold wr in Hinr, Hdraws.
  assert (HweL : effectActiveType (cam we) = EffectTypeLDR) by reflexivity.
  split; [apply Hloop|].
  split; [destruct Hin as (_ & _ & Htone); exact (Htone eq_refl)|].
  split.
  { intros k wk.
    destruct (subPasses_tonemapper (effectID t) k ws Hin) as (_ & _ & (_ & Ht & _) & _).
    apply (EffectPass_tonemapper wk). exact Ht. }
  split.
  { exists ds. rewrite Hdraws, Hds. auto. }
  split.
  { destruct Hinr as (_ & Ht & _). unfold endEffectPass.
    destruct (hdr (cam wr)); cbn; rewrite Ht;
      rewrite decide_True by reflexivity; reflexivity. }
  split; [exact HweL|].
  intros mid e rest Hpost wm.
  destruct (hdrLoop_cam mid we) as [_ HL]. specialize (HL HweL). fold wm in HL.
  split; [apply Hloop|]. split; [exact HL|].
  intros Hne. split.
  { unfold hdrStep. rewrite decide_False by exact Hne. reflexivity. }
  intros k.
  destruct (subPasses_cam (effectID e) k (startEffectPass wm)) as [_ Hk].
  rewrite Hk, startEffectPass_cam. exact HL.
Qed.

Lemma tonemapper_effect_witness :
  let w := worldOf (newCamera None RenderPathForward true) in
  (hdr (cam w) = true /\ Built (cam w)
   /\ effectType tonemap = EffectTypeTonemapper)
  /\ effectLoop ([blur 3] ++ tonemap :: [vignette 1]) w =
       foldl hdrStep
         (withCam (setEffectActiveType EffectTypeLDR)
            (endEffectPass
               (Render tonemap
                  (startEffectPass
                     (withCam (setEffectActiveType EffectTypeTonemapper)
                        (effectLoop [blur 3] w))))))
         [vignette 1].
Proof.
  split; [repeat split|].
  exact (proj1 (tonemapper_effect
                  (worldOf (newCamera None RenderPathForward true))
                  [blur 3] [vignette 1] tonemap eq_refl eq_refl eq_refl)).
Defined.

(** *** Where an effect's result ends up *)

Lemma newest_succ prim sec k :
  newest prim sec (S k) = if Z.odd (Z.of_nat k) then prim else sec.
Proof.
  unfold newest. rewrite Nat2Z.inj_succ, Z.odd_succ, <- Z.negb_odd.
  destruct (Z.odd (Z.of_nat k)); reflexivity.
Qed.

Lemma plainDomain_step prim sec id k w :
  plainDomain w prim sec ->
  effectPass (cam w) = Z.of_nat k ->
  Z.of_nat k < Int32.MaxInt32 ->
  let w' := EffectPass (shaderBind (EffectProgram id k) w) in
  plainDomain w' prim sec
  /\ effectPass (cam w') = Z.of_nat (S k)
  /\ pixels (gl w') (newest prim sec (S k)) =
       Shaded (Some (EffectProgram id k)) (pixels (gl w) (newest prim sec k))
  /\ pixels (gl w') (newest prim sec k) = pixels (gl w) (newest prim sec k).
Proof.
  intros (HB & Hdom) Hp Hk. cbn zeta.
  split; [|split].
  - unfold plainDomain. rewrite EffectPass_cam. cbn.
    split; [exact HB | exact Hdom].
  - rewrite EffectPass_cam. cbn. rewrite Hp, Nat2Z.inj_succ.
    apply Int32Facts.succ_small. lia.
  - rewrite newest_succ. unfold newest, EffectPass.
    cbn [cam shaderBind withGL].
    rewrite Hp, Int32Facts.rem2_odd by lia.
    destruct Hdom as [(Ht & Hh & -> & ->) | (Ht & Hh & -> & ->)];
      rewrite Ht; destruct (Z.odd (Z.of_nat k)); cbn;
      rewrite (Built_attachments _ HB), Hh; cbn;
      split; reflexivity.
Qed.

Lemma plainDomain_run prim sec id n w :
  plainDomain w prim sec ->
  effectPass (cam w) = 0 ->
  Z.of_nat n <= Int32.MaxInt32 ->
  let w' := subPasses id n w in
  plainDomain w' prim sec
  /\ effectPass (cam w') = Z.of_nat n
  /\ pixels (gl w') (newest prim sec n) = stage id n (pixels (gl w) prim)
  /\ forall m, n = S m ->
       pixels (gl w') (newest prim sec m) = stage id m (pixels (gl w) prim).
Proof.
  intros Hdom H0. induction n as [|n IH]; intros Hn; cbn zeta.
  - simpl. split; [exact Hdom|]. split; [exact H0|]. split; [reflexivity|].
    intros m Hm. discriminate.
  - destruct IH as (IHdom & IHp & IHnew & _); [lia|].
    cbn [subPasses].
    destruct (plainDomain_step prim sec id n _ IHdom IHp) as (Sdom & Sp & Snew & Sold);
      [lia|].
    split; [exact Sdom|]. split; [exact Sp|]. split.
    + rewrite Snew, IHnew. reflexivity.
    + intros m Hm. injection Hm as <-. rewrite Sold. exact IHnew.
Qed.

(** What [endEffectPass] leaves in the camera's textures: nothing new
    under the tonemapper or on an odd counter, and otherwise the
    secondary texture of the active type copied into whatever is
    attached at the draw buffer chosen by the HDR flag. *)
Lemma endEffectPass_pixels w :
  pixels (gl (endEffectPass w)) =
    if decide (effectActiveType (cam w) = EffectTypeTonemapper)
    then pixels (gl w)
    else if Int32.rem (effectPass (cam w)) 2 =? 1 then pixels (gl w)
    else
      writeTo
        (attachedAt (attachments (cam w))
           (if hdr (cam w) then [COLOR_ATTACHMENT1] else [COLOR_ATTACHMENT0]))
        (pixels (gl w)
           (if decide (effectActiveType (cam w) = EffectTypeHDR)
            then CameraTextureHDR1 else CameraTextureLDR1))
        (pixels (gl w)).
Proof.
  destruct w as [c g].
  destruct c as [ts ss ms es dc fc fb gb pm vm cc cm rp p t h sky].
  destruct g as [bt db pr us gcc dm dt px ds cs].
  unfold endEffectPass.
  destruct t, h;
    cbn [cam gl hdr effectActiveType effectPass framebufferApplyDrawBuffers
         withGL];
    repeat first [ rewrite decide_True by reflexivity
                 | rewrite decide_False by discriminate ];
    try reflexivity;
    destruct (Int32.rem p 2 =? 1); try reflexivity;
    vm_compute; reflexivity.
Qed.

(** X10. After an effect of [n >= 1] sub-passes and [endEffectPass], the
    primary texture of the domain holds what the first [n - 1]
    sub-passes made of the image the effect started from: the image the
    last sub-pass made is not the one in the primary texture. *)
Lemma effect_result_one_pass_behind prim sec e m w :
  plainDomain w prim sec ->
  effectSubPasses e = S m ->
  Z.of_nat (S m) <= Int32.MaxInt32 ->
  pixels (gl (endEffectPass (Render e (startEffectPass w)))) prim =
    stage (effectID e) m (pixels (gl w) prim).
Proof.
  intros Hdom Hn Hrange.
  assert (Hstart : plainDomain (startEffectPass w) prim sec
                   /\ effectPass (cam (startEffectPass w)) = 0
                   /\ pixels (gl (startEffectPass w)) prim = pixels (gl w) prim).
  { destruct Hdom as (HB & Hd). unfold plainDomain, startEffectPass. cbn.
    destruct Hd as [(Ht & Hh & -> & ->) | (Ht & Hh & -> & ->)]; rewrite Ht; cbn;
      (split; [split; [exact HB|]|split; reflexivity]);
      [left | right]; rewrite ?Ht; auto. }
  destruct Hstart as (Hdom0 & Hp0 & Hpx0).
  unfold Render. rewrite Hn.
  destruct (plainDomain_run prim sec (effectID e) (S m) _ Hdom0 Hp0 Hrange)
    as ((HB & Hd) & Hp & Hnew & Hold).
  specialize (Hold m eq_refl). rewrite Hpx0 in Hnew, Hold.
  rewrite newest_succ in Hnew. unfold newest in Hold.
  set (wr := subPasses (effectID e) (S m) (startEffectPass w)) in *.
  clearbody wr.
  assert (Hparity : (Int32.rem (effectPass (cam wr)) 2 =? 1)
                    = negb (Z.odd (Z.of_nat m))).
  { rewrite Hp, Int32Facts.rem2_odd by lia.
    rewrite Nat2Z.inj_succ, Z.odd_succ, <- Z.negb_odd. reflexivity. }
  rewrite endEffectPass_pixels, Hparity, (Built_attachments _ HB).
  destruct Hd as [(Ht & Hh & -> & ->) | (Ht & Hh & -> & ->)];
    rewrite Ht, Hh;
    rewrite decide_False by discriminate;
    destruct (Z.odd (Z.of_nat m)); cbn [negb];
    try exact Hold;
    repeat first [ rewrite decide_True by reflexivity
                 | rewrite decide_False by discriminate ];
    (rewrite writeTo_target; [exact Hold | cbn; left]).
Qed.

(** [renderEffects] is the loop, between the two changes of the depth
    state, when the camera has an effect. *)
Lemma renderEffects_loop w :
  effects (cam w) <> [] ->
  renderEffects w =
    glDepthMask true
      (glEnableDepthTest
         (effectLoop (effects (cam w))
            (glDisableDepthTest (glDepthMask false w)))).
Proof.
  intros Hne. unfold renderEffects.
  destruct (effects (cam w)) as [|e es] eqn:He; [contradiction|]. reflexivity.
Qed.

(** X9. The draw buffer [endEffectPass] leaves selected follows the
    camera's HDR flag, whatever the active type and the counter. *)
Lemma endEffectPass_drawBuffers w :
  drawBuffers (gl (endEffectPass w)) =
    if hdr (cam w) then [COLOR_ATTACHMENT1] else [COLOR_ATTACHMENT0].
Proof.
  unfold endEffectPass.
  destruct (hdr (cam w)); cbn;
    destruct (decide (effectActiveType (cam w) = EffectTypeTonemapper)); try reflexivity;
    destruct (Int32.rem (effectPass (cam w)) 2 =? 1); try reflexivity;
    cbn; destruct (decide (effectActiveType (cam w) = EffectTypeHDR)); reflexivity.
Qed.

(** C1, on a camera without HDR whose one effect runs one sub-pass. The
    sub-pass reads LDR-primary and writes LDR-secondary and leaves the
    counter at 1; [endEffectPass] finds it odd and makes no copy. After
    [renderEffects] the image the effect made is in the secondary
    texture, and the primary texture holds what it held before. *)
Theorem one_sub_pass_result_stays_in_secondary :
  let w := worldOf (AddEffect (vignette 1)
                      (newCamera None RenderPathForward false)) in
  let w' := renderEffects w in
  effectActiveType (cam w') = EffectTypeLDR
  /\ effectPass (cam w') = 1
  /\ draws (gl w') =
       [{| drawProgram := Some (EffectProgram 3 0);
           drawRead := Some (CameraTex CameraTextureLDR0);
           drawSlots := [COLOR_ATTACHMENT2];
           drawWritten := [CameraTextureLDR1] |}]
  /\ pixels (gl w') CameraTextureLDR1 = stage 3 1 (Initial CameraTextureLDR0)
  /\ pixels (gl w') CameraTextureLDR0 = Initial CameraTextureLDR0
  /\ pixels (gl w') CameraTextureLDR0 <> stage 3 1 (Initial CameraTextureLDR0).
Proof.
  cbv zeta. repeat split; try (vm_compute; reflexivity).
  vm_compute. discriminate.
Qed.

(** With two sub-passes the second one writes the primary texture, the
    counter ends even, and the copy of [endEffectPass] puts the image of
    the first sub-pass over it. *)
Lemma two_sub_passes_result_overwritten :
  let w := worldOf (AddEffect (vignette 2)
                      (newCamera None RenderPathForward false)) in
  let w' := renderEffects w in
  effectPass (cam w') = 2
  /\ pixels (gl w') CameraTextureLDR0 = stage 3 1 (Initial CameraTextureLDR0).
Proof. cbv zeta. split; vm_compute; reflexivity. Qed.

(** With no sub-pass at all the copy still runs, and the primary texture
    takes what the secondary one held. *)
Lemma no_sub_pass_primary_overwritten :
  let w := worldOf (AddEffect (vignette 0)
                      (newCamera None RenderPathForward false)) in
  let w' := renderEffects w in
  pixels (gl w') CameraTextureLDR0 = Initial CameraTextureLDR1.
Proof. vm_compute. reflexivity. Qed.

(** C5, on an HDR camera with a tonemapper followed by an LDR effect of
    two sub-passes. When [endEffectPass] runs for the LDR effect the
    active type is LDR, whose primary texture is attached at
    [COLOR_ATTACHMENT0]; the draw buffer it selects is
    [COLOR_ATTACHMENT1], where the HDR-primary texture is attached, and
    its copy reads LDR-secondary and writes HDR-primary. *)
Theorem ldr_effect_on_hdr_camera_ends_on_hdr_slot :
  let w := worldOf (AddEffect (vignette 2)
                      (AddEffect tonemap
                         (newCamera None RenderPathForward true))) in
  let wm := effectLoop [tonemap] (glDisableDepthTest (glDepthMask false w)) in
  let we := endEffectPass (Render (vignette 2) (startEffectPass wm)) in
  renderEffects w = glDepthMask true (glEnableDepthTest we)
  /\ effectActiveType (cam we) = EffectTypeLDR
  /\ primary (effectActiveType (cam we)) = Some CameraTextureLDR0
  /\ drawBuffers (gl we) = [COLOR_ATTACHMENT1]
  /\ drawBuffers (gl we) <> [slot CameraTextureLDR0]
  /\ attachments (cam we) COLOR_ATTACHMENT1 = Some CameraTextureHDR0
  /\ last (draws (gl we)) =
       Some {| drawProgram := Some (CameraProgram CameraShaderCopy);
               drawRead := Some (CameraTex CameraTextureLDR1);
               drawSlots := [COLOR_ATTACHMENT1];
               drawWritten := [CameraTextureHDR0] |}.
Proof.
  cbv zeta. repeat split; try (vm_compute; reflexivity).
  vm_compute. discriminate.
Qed.

(** *** More on the effect chain *)

Lemma effect_result_one_pass_behind_witness :
  let w := withCam (setEffectActiveType EffectTypeHDR)
             (worldOf (newCamera None RenderPathForward true)) in
  (plainDomain w CameraTextureHDR0 CameraTextureHDR1
   /\ effectSubPasses (blur 3) = 3%nat
   /\ Z.of_nat 3 <= Int32.MaxInt32)
  /\ pixels (gl (endEffectPass (Render (blur 3) (startEffectPass w))))
       CameraTextureHDR0
     = stage 1 2 (Initial CameraTextureHDR0).
Proof.
  assert (Hd : plainDomain
                 (withCam (setEffectActiveType EffectTypeHDR)
                    (worldOf (newCamera None RenderPathForward true)))
                 CameraTextureHDR0 CameraTextureHDR1).
  { split; [reflexivity|]. left. repeat split. }
  assert (Hr : Z.of_nat 3 <= Int32.MaxInt32) by (vm_compute; discriminate).
  split; [split; [exact Hd | split; [reflexivity | exact Hr]]|].
  exact (effect_result_one_pass_behind CameraTextureHDR0 CameraTextureHDR1
           (blur 3) 2 _ Hd eq_refl Hr).
Defined.

(** X11. The draws of [endEffectPass], in any state: none under the
    tonemapper or on an odd counter; otherwise exactly one, with the
    copy shader, which reads the secondary texture of the active type
    (LDR-secondary unless the type is HDR) and writes what is attached
    at the draw buffer chosen by the HDR flag. *)
Theorem endEffectPass_draws (w : World) :
  draws (gl (endEffectPass w)) =
    draws (gl w) ++
    (if decide (effectActiveType (cam w) = EffectTypeTonemapper) then []
     else if Int32.rem (effectPass (cam w)) 2 =? 1 then []
     else [copyDraw w]).
Proof.
  destruct w as [c g].
  destruct c as [ts ss ms es dc fc fb gb pm vm cc cm rp p t h sky].
  destruct g as [bt db pr us gcc dm dt px ds cs].
  unfold endEffectPass, copyDraw.
  destruct t, h;
    cbn [cam gl hdr effectActiveType effectPass framebufferApplyDrawBuffers
         withGL draws record setDrawBuffers];
    repeat first [ rewrite decide_True by reflexivity
                 | rewrite decide_False by discriminate ];
    try (rewrite app_nil_r; reflexivity);
    destruct (Int32.rem p 2 =? 1);
    try (cbn [gl draws]; rewrite app_nil_r; reflexivity);
    vm_compute; reflexivity.
Qed.

(** X12. After an effect (from [startEffectPass] through its sub-passes
    to [endEffectPass]) the counter is the number of sub-passes the
    effect ran, wrapped to 32 bits, whatever it was before and whatever
    the active type: the count of one effect does not leak into the
    next. *)
Theorem effect_counter (w : World) (e : Effect) :
  effectPass (cam (endEffectPass (Render e (startEffectPass w))))
    = Int32.wrap (Z.of_nat (effectSubPasses e))
  /\ (Z.of_nat (effectSubPasses e) <= Int32.MaxInt32 ->
      effectPass (cam (endEffectPass (Render e (startEffectPass w))))
        = Z.of_nat (effectSubPasses e)).
Proof.
  assert (H : forall n, effectPass (cam (subPasses (effectID e) n (startEffectPass w)))
                        = Int32.wrap (Z.of_nat n)).
  { induction n as [|n IH].
    - simpl. rewrite startEffectPass_cam. reflexivity.
    - cbn [subPasses]. rewrite EffectPass_cam.
      cbn [effectPass setEffectPass cam shaderBind withGL].
      rewrite IH, Int32Facts.wrap_succ_wrap, Nat2Z.inj_succ. reflexivity. }
  rewrite endEffectPass_cam. unfold Render. rewrite H.
  split; [reflexivity|]. apply Int32Facts.wrap_of_count.
Qed.

Lemma effect_counter_witness :
  Z.of_nat (effectSubPasses (blur 3)) <= Int32.MaxInt32
  /\ effectPass
       (cam (endEffectPass
               (Render (blur 3)
                  (startEffectPass
                     (worldOf (newCamera None RenderPathForward true))))))
     = 3.
Proof.
  assert (Hr : Z.of_nat (effectSubPasses (blur 3)) <= Int32.MaxInt32)
    by (vm_compute; discriminate).
  split; [exact Hr|].
  exact (proj2 (effect_counter (worldOf (newCamera None RenderPathForward true))
                  (blur 3)) Hr).
Defined.

Lemma onlyEffectCalls_refl w : onlyEffectCalls w w.
Proof.
  repeat split. exists []. rewrite app_nil_r. split; [reflexivity | constructor].
Qed.

Lemma onlyEffectCalls_trans w1 w2 w3 :
  onlyEffectCalls w1 w2 -> onlyEffectCalls w2 w3 -> onlyEffectCalls w1 w3.
Proof.
  intros (A1 & A2 & A3 & cs1 & A4 & A5) (B1 & B2 & B3 & cs2 & B4 & B5).
  split; [congruence|]. split; [congruence|]. split; [congruence|].
  exists (cs1 ++ cs2). split.
  - rewrite B4, A4, app_assoc. reflexivity.
  - apply Forall_app. auto.
Qed.

Lemma onlyEffectCalls_withCam f w : onlyEffectCalls w (withCam f w).
Proof. apply (onlyEffectCalls_refl w). Qed.

Ltac effect_calls :=
  repeat split;
  first
    [ solve [ exists []; cbn; rewrite app_nil_r; split; [reflexivity | constructor] ]
    | eexists; (split; [cbn; rewrite <- ?app_assoc; reflexivity|]);
      cbn; repeat constructor ].

Lemma startEffectPass_onlyEffectCalls w : onlyEffectCalls w (startEffectPass w).
Proof.
  destruct w as [c g].
  destruct c as [ts ss ms es dc fc fb gb pm vm cc cm rp p t h sky].
  unfold startEffectPass. destruct t; cbn [cam withCam effectActiveType setEffectPass].
  all: effect_calls.
Qed.

Lemma EffectPass_onlyEffectCalls p w :
  onlyEffectCalls w (EffectPass (shaderBind p w)).
Proof.
  destruct w as [c g].
  destruct c as [ts ss ms es dc fc fb gb pm vm cc cm rp n t h sky].
  unfold EffectPass.
  destruct t; cbn [cam shaderBind withGL effectActiveType effectPass];
    try destruct (Int32.rem n 2 =? 1); effect_calls.
Qed.

Lemma endEffectPass_onlyEffectCalls w : onlyEffectCalls w (endEffectPass w).
Proof.
  destruct w as [c g].
  destruct c as [ts ss ms es dc fc fb gb pm vm cc cm rp n t h sky].
  unfold endEffectPass.
  destruct t, h;
    cbn [cam gl hdr effectActiveType effectPass framebufferApplyDrawBuffers withGL];
    repeat first [ rewrite decide_True by reflexivity
                 | rewrite decide_False by discriminate ];
    try destruct (Int32.rem n 2 =? 1); effect_calls.
Qed.

Lemma subPasses_onlyEffectCalls id n w : onlyEffectCalls w (subPasses id n w).
Proof.
  induction n as [|n IH]; cbn [subPasses].
  - apply onlyEffectCalls_refl.
  - eapply onlyEffectCalls_trans; [exact IH | apply EffectPass_onlyEffectCalls].
Qed.

Lemma effect_onlyEffectCalls e w :
  onlyEffectCalls w (endEffectPass (Render e (startEffectPass w))).
Proof.
  eapply onlyEffectCalls_trans; [apply startEffectPass_onlyEffectCalls|].
  eapply onlyEffectCalls_trans; [apply subPasses_onlyEffectCalls|].
  apply endEffectPass_onlyEffectCalls.
Qed.

Lemma effectLoop_onlyEffectCalls es w : onlyEffectCalls w (effectLoop es w).
Proof.
  assert (Hh : forall es w, onlyEffectCalls w (foldl hdrStep w es)).
  { clear. induction es as [|e es IH]; intros w; simpl.
    - apply onlyEffectCalls_refl.
    - eapply onlyEffectCalls_trans; [|apply IH].
      unfold hdrStep. destruct (decide (effectType e = EffectTypeTonemapper)).
      + eapply onlyEffectCalls_trans; [apply onlyEffectCalls_withCam|].
        eapply onlyEffectCalls_trans; [apply effect_onlyEffectCalls|].
        apply onlyEffectCalls_withCam.
      + apply effect_onlyEffectCalls. }
  assert (Hl : forall es w, onlyEffectCalls w (foldl ldrStep w es)).
  { clear. induction es as [|e es IH]; intros w; simpl.
    - apply onlyEffectCalls_refl.
    - eapply onlyEffectCalls_trans; [|apply IH]. apply effect_onlyEffectCalls. }
  unfold effectLoop. destruct (hdr (cam w)).
  - eapply onlyEffectCalls_trans; [apply onlyEffectCalls_withCam | apply Hh].
  - eapply onlyEffectCalls_trans; [apply onlyEffectCalls_withCam | apply Hl].
Qed.

(** X13. [renderEffects] on a camera without effects does nothing at
    all. With effects it first disables depth writes and the depth
    test, then makes only calls that bind, select a draw buffer or draw
    (it clears nothing and sets no uniform), then enables the depth
    test and depth writes: both are on afterwards whatever they were
    before, and the clear colour is untouched. *)
Theorem renderEffects_depth_state (w : World) :
  match effects (cam w) with
  | [] => renderEffects w = w
  | _ =>
      depthMask (gl (renderEffects w)) = true
      /\ depthTest (gl (renderEffects w)) = true
      /\ glClearColor (gl (renderEffects w)) = glClearColor (gl w)
      /\ exists cs,
           calls (gl (renderEffects w)) =
             calls (gl w) ++ [DepthMask false; Disable DEPTH_TEST] ++ cs
               ++ [Enable DEPTH_TEST; DepthMask true]
           /\ Forall effectCall cs
  end.
Proof.
  destruct (effects (cam w)) as [|e es] eqn:He.
  - unfold renderEffects. rewrite He. reflexivity.
  - assert (Hne : effects (cam w) <> []) by (rewrite He; discriminate).
    rewrite (renderEffects_loop w Hne), He.
    destruct (effectLoop_onlyEffectCalls (e :: es)
                (glDisableDepthTest (glDepthMask false w)))
      as (_ & _ & Hcc & cs & Hcalls & Hall).
    split; [reflexivity|]. split; [reflexivity|]. split.
    + cbn [glDepthMask glEnableDepthTest glDisableDepthTest withGL gl record
           setDepthMask setDepthTest glClearColor] in Hcc |- *.
      exact Hcc.
    + exists cs. split; [|exact Hall].
      cbn [glDepthMask glEnableDepthTest withGL gl record setDepthMask
           setDepthTest calls].
      rewrite Hcalls.
      cbn [glDepthMask glDisableDepthTest withGL gl record setDepthMask
           setDepthTest calls].
      rewrite <- !app_assoc. reflexivity.
Qed.

(** *** The effect chain of a camera without HDR *)

Lemma ldrChain_refl w :
  Built (cam w) -> hdr (cam w) = false ->
  effectActiveType (cam w) = EffectTypeLDR ->
  ldrChain w w.
Proof.
  intros HB Hh Ht. repeat split; try assumption.
  exists []. rewrite app_nil_r. split; [reflexivity | constructor].
Qed.

Lemma ldrChain_trans w1 w2 w3 : ldrChain w1 w2 -> ldrChain w2 w3 -> ldrChain w1 w3.
Proof.
  intros (_ & _ & _ & (ds1 & D1 & F1) & P1) (HB & Hh & Ht & (ds2 & D2 & F2) & P2).
  split; [exact HB|]. split; [exact Hh|]. split; [exact Ht|]. split.
  - exists (ds1 ++ ds2). split; [rewrite D2, D1, app_assoc; reflexivity|].
    apply Forall_app. auto.
  - intros t H0 H1. rewrite P2, P1 by assumption. reflexivity.
Qed.

Lemma ldrOnly_intro p r bufs t :
  (r = CameraTextureLDR0 \/ r = CameraTextureLDR1) ->
  (t = CameraTextureLDR0 \/ t = CameraTextureLDR1) ->
  ldrOnly {| drawProgram := p; drawRead := Some (CameraTex r);
             drawSlots := bufs; drawWritten := [t] |}.
Proof.
  intros Hr Ht. split.
  - cbn. destruct Hr as [-> | ->]; auto.
  - cbn. intros x Hx. apply list_elem_of_singleton in Hx. subst x. exact Ht.
Qed.

Ltac ldr_state w :=
  let c := fresh "c" in
  let g := fresh "g" in
  destruct w as [c g];
  destruct c as [ts ss ms es dc fc fb gb pm vm cc cm rp n t h sky];
  destruct g as [bt db pr us gcc dm dt px ds cs];
  unfold Built; cbn [cam hdr effectActiveType framebuffer];
  intros HB Hh Ht; subst fb h t.

Ltac ldr_frame :=
  let t := fresh "t" in
  let H0 := fresh "H0" in
  let H1 := fresh "H1" in
  intros t H0 H1; destruct t; try congruence; vm_compute; reflexivity.

Lemma startEffectPass_ldrChain w :
  Built (cam w) -> hdr (cam w) = false ->
  effectActiveType (cam w) = EffectTypeLDR ->
  ldrChain w (startEffectPass w).
Proof.
  ldr_state w. split; [reflexivity|]. split; [reflexivity|].
  split; [reflexivity|]. split.
  - exists []. split; [rewrite app_nil_r; reflexivity | constructor].
  - ldr_frame.
Qed.

Lemma EffectPass_ldrChain p w :
  Built (cam w) -> hdr (cam w) = false ->
  effectActiveType (cam w) = EffectTypeLDR ->
  ldrChain w (EffectPass (shaderBind p w)).
Proof.
  ldr_state w. unfold EffectPass.
  cbn [cam shaderBind withGL effectActiveType effectPass].
  destruct (Int32.rem n 2 =? 1);
    (split; [reflexivity|]); (split; [reflexivity|]); (split; [reflexivity|]);
    (split; [|ldr_frame]);
    eexists [_]; (split; [reflexivity|]); (constructor; [|constructor]);
    apply ldrOnly_intro; auto.
Qed.

Lemma endEffectPass_ldrChain w :
  Built (cam w) -> hdr (cam w) = false ->
  effectActiveType (cam w) = EffectTypeLDR ->
  ldrChain w (endEffectPass w).
Proof.
  ldr_state w. unfold endEffectPass.
  cbn [cam gl hdr effectActiveType effectPass framebufferApplyDrawBuffers withGL].
  rewrite decide_False by discriminate.
  destruct (Int32.rem n 2 =? 1).
  - split; [reflexivity|]. split; [reflexivity|]. split; [reflexivity|].
    split; [|ldr_frame].
    exists []. split; [rewrite app_nil_r; reflexivity | constructor].
  - cbn [cam shaderBind shaderSetSubroutine withGL effectActiveType].
    rewrite decide_False by discriminate.
    split; [reflexivity|]. split; [reflexivity|]. split; [reflexivity|].
    split; [|ldr_frame].
    eexists [_]. split; [reflexivity|]. constructor; [|constructor].
    apply ldrOnly_intro; auto.
Qed.

Lemma subPasses_ldrChain id n w :
  Built (cam w) -> hdr (cam w) = false ->
  effectActiveType (cam w) = EffectTypeLDR ->
  ldrChain w (subPasses id n w).
Proof.
  intros HB Hh Ht. induction n as [|n IH]; cbn [subPasses].
  - apply ldrChain_refl; assumption.
  - eapply ldrChain_trans; [exact IH|].
    destruct IH as (HB' & Hh' & Ht' & _).
    apply EffectPass_ldrChain; assumption.
Qed.

Lemma ldrStep_ldrChain e w :
  Built (cam w) -> hdr (cam w) = false ->
  effectActiveType (cam w) = EffectTypeLDR ->
  ldrChain w (ldrStep w e).
Proof.
  intros HB Hh Ht. unfold ldrStep, Render.
  pose proof (startEffectPass_ldrChain w HB Hh Ht) as H1.
  pose proof H1 as (HB1 & Hh1 & Ht1 & _).
  pose proof (subPasses_ldrChain (effectID e) (effectSubPasses e) _ HB1 Hh1 Ht1) as H2.
  pose proof H2 as (HB2 & Hh2 & Ht2 & _).
  pose proof (endEffectPass_ldrChain _ HB2 Hh2 Ht2) as H3.
  exact (ldrChain_trans _ _ _ H1 (ldrChain_trans _ _ _ H2 H3)).
Qed.

(** X14. On a built camera without HDR the effect loop runs every
    effect under the active type LDR, whatever type the effect declares
    (a tonemapper-typed effect is run like any other): every draw of
    the loop, copies included, reads LDR-primary or LDR-secondary and
    writes only those two, and the HDR, depth and normals textures hold
    afterwards what they held before. *)
Theorem effectLoop_without_hdr (es : list Effect) (w : World) :
  Built (cam w) ->
  hdr (cam w) = false ->
  ldrChain w (effectLoop es w).
Proof.
  intros HB Hh. unfold effectLoop. rewrite Hh.
  assert (H0 : ldrChain w (withCam (setEffectActiveType EffectTypeLDR) w)).
  { split; [exact HB|]. split; [exact Hh|]. split; [reflexivity|]. split.
    - exists []. rewrite app_nil_r. split; [reflexivity | constructor].
    - reflexivity. }
  revert H0. generalize (withCam (setEffectActiveType EffectTypeLDR) w).
  induction es as [|e es IH]; intros w0 H0; simpl.
  - exact H0.
  - apply IH. eapply ldrChain_trans; [exact H0|].
    destruct H0 as (HB0 & Hh0 & Ht0 & _).
    apply ldrStep_ldrChain; assumption.
Qed.

Lemma effectLoop_without_hdr_witness :
  let w := worldOf (newCamera None RenderPathForward false) in
  (Built (cam w) /\ hdr (cam w) = false)
  /\ pixels (gl (effectLoop [tonemap; vignette 2] w)) CameraTextureHDR0
     = Initial CameraTextureHDR0.
Proof.
  split; [split; reflexivity|].
  destruct (effectLoop_without_hdr [tonemap; vignette 2]
              (worldOf (newCamera None RenderPathForward false))
              eq_refl eq_refl) as (_ & _ & _ & _ & Hpx).
  exact (Hpx CameraTextureHDR0 ltac:(discriminate) ltac:(discriminate)).
Defined.

(** *** More on the classification cache, construction and the clear *)

Lemma setCaches_own c : setCaches (deferredCache c) (forwardCache c) c = c.
Proof. destruct c. reflexivity. Qed.

Lemma classify_foldl_record (ds : list Component) (c : Camera) :
  foldl (fun c d =>
           if SupportsDeferred d
           then setCaches (deferredCache c ++ [d]) (forwardCache c) c
           else setCaches (deferredCache c) (forwardCache c ++ [d]) c)
        c ds
  = setCaches
      (deferredCache c ++ filter (fun d => SupportsDeferred d = true) ds)
      (forwardCache c ++ filter (fun d => SupportsDeferred d = false) ds)
      c.
Proof.
  revert c. induction ds as [|d ds IH]; intros c.
  - simpl. rewrite !app_nil_r. symmetry. apply setCaches_own.
  - cbn [foldl]. rewrite IH. rewrite !filter_cons.
    destruct c. destruct (SupportsDeferred d) eqn:Hd;
      cbn [setCaches deferredCache forwardCache];
      rewrite ?decide_True by reflexivity;
      rewrite ?decide_False by discriminate;
      rewrite <- app_assoc; reflexivity.
Qed.

Lemma filter_split_length (ds : list Component) :
  (length (filter (fun d => SupportsDeferred d = false) ds)
   + length (filter (fun d => SupportsDeferred d = true) ds))%nat
  = length ds.
Proof.
  induction ds as [|d ds IH]; [reflexivity|].
  rewrite !filter_cons. destruct (SupportsDeferred d); simpl in *; lia.
Qed.

Lemma OnSceneGraphUpdate_eq (components : list Component) (c : Camera) :
  OnSceneGraphUpdate components c =
    let drawables := filter (fun x => isDrawable x = true) components in
    match renderPath c with
    | RenderPathForward => setCaches [] drawables c
    | RenderPathDeferred =>
        setCaches (filter (fun d => SupportsDeferred d = true) drawables)
                  (filter (fun d => SupportsDeferred d = false) drawables) c
    end.
Proof.
  unfold OnSceneGraphUpdate.
  cbn [renderPath setCaches deferredCache forwardCache].
  destruct (renderPath c) eqn:Hp; cbn zeta.
  - destruct c. reflexivity.
  - rewrite classify_foldl_record. destruct c. reflexivity.
Qed.

(** X15. [OnSceneGraphUpdate] touches nothing of the camera but the two
    caches, the caches together hold as many entries as the scene has
    drawable components, and a second rebuild over the same scene
    changes nothing. *)
Theorem OnSceneGraphUpdate_idempotent (components : list Component) (c : Camera) :
  let c' := OnSceneGraphUpdate components c in
  c' = setCaches (deferredCache c') (forwardCache c') c
  /\ (length (forwardCache c') + length (deferredCache c'))%nat
     = length (filter (fun x => isDrawable x = true) components)
  /\ OnSceneGraphUpdate components c' = c'.
Proof.
  cbn zeta. rewrite !OnSceneGraphUpdate_eq. cbn zeta.
  destruct (renderPath c) eqn:Hp.
  - cbn [renderPath setCaches deferredCache forwardCache]. rewrite Hp.
    split; [reflexivity|]. split; [simpl; lia | reflexivity].
  - cbn [renderPath setCaches deferredCache forwardCache]. rewrite Hp.
    split; [reflexivity|]. split; [apply filter_split_length | reflexivity].
Qed.

(** X16. When [NewCamera] returns a camera, nothing of the construction
    failed, and the camera has the shape [setupPipeline] gives it: the
    two HDR textures exist exactly on an HDR camera, a texture is
    attached to the framebuffer exactly when it exists, the G-buffer
    exists exactly on the deferred path and then shares the camera's
    depth texture, and there are no effects and no cached drawables. *)
Theorem NewCamera_shape (env : Env) (path : RenderPath) (h : bool) (c : Camera) :
  NewCamera env path h = Done c ->
  (mustAssign env = None /\ framebufferAlloc env = None
   /\ (path = RenderPathDeferred -> gbufferAlloc env = None))
  /\ Built c /\ hdr c = h /\ renderPath c = path
  /\ (forall t, t ∈ textures c <->
        (h = true \/ (t <> CameraTextureHDR0 /\ t <> CameraTextureHDR1)))
  /\ (forall t, t ∈ textures c <-> exists a, attachments c a = Some t)
  /\ (is_Some (gbuffer c) <-> path = RenderPathDeferred)
  /\ (forall gb, gbuffer c = Some gb ->
        gbDepth gb = Some CameraTextureDepth /\ gbHDR gb = h)
  /\ effects c = [] /\ forwardCache c = [] /\ deferredCache c = []
  /\ projectionMatrix c = windowProjection env.
Proof.
  unfold NewCamera, setupPipeline.
  destruct (mustAssign env) eqn:Ha; [discriminate|].
  destruct (framebufferAlloc env) eqn:Hf; [discriminate|].
  cbn [renderPath blankCamera hdr].
  assert (Htex : forall t : CameraTexture,
            t ∈ (if h
                 then [CameraTextureLDR0; CameraTextureLDR1; CameraTextureDepth;
                       CameraTextureNormals]
                      ++ [CameraTextureHDR0; CameraTextureHDR1]
                 else [CameraTextureLDR0; CameraTextureLDR1; CameraTextureDepth;
                       CameraTextureNormals])
            <-> (h = true \/ (t <> CameraTextureHDR0 /\ t <> CameraTextureHDR1))).
  { intros t. destruct h; cbn [app]; rewrite !elem_of_cons, elem_of_nil;
      destruct t; split; intros H; try tauto;
      try (left; reflexivity);
      try (right; split; discriminate);
      try (destruct H as [H | [H1 H2]]; [discriminate | congruence]);
      repeat (destruct H as [H | H]; try discriminate); try contradiction. }
  assert (Hatt : forall t : CameraTexture,
            (h = true \/ (t <> CameraTextureHDR0 /\ t <> CameraTextureHDR1))
            <-> exists a, pipelineAttachments h a = Some t).
  { intros t. split.
    - intros H. exists (slot t). destruct h.
      + apply slot_attached_hdr.
      + destruct H as [H | [H0 H1]]; [discriminate|].
        apply slot_attached_ldr; assumption.
    - intros [a Ha']. destruct h; [left; reflexivity|]. right.
      destruct a; vm_compute in Ha'; inversion Ha'; split; discriminate. }
  destruct path.
  - intros [= <-]. cbn.
    split; [split; [reflexivity | split; [reflexivity | discriminate]]|].
    split; [reflexivity|]. split; [reflexivity|]. split; [reflexivity|].
    split; [exact Htex|]. split; [intros t; rewrite Htex; apply Hatt|].
    split; [split; [intros [x Hx]; discriminate | discriminate]|].
    split; [discriminate|]. repeat split.
  - destruct (gbufferAlloc env) eqn:Hg; [discriminate|].
    intros [= <-]. cbn.
    split; [split; [reflexivity | split; [reflexivity | reflexivity]]|].
    split; [reflexivity|]. split; [reflexivity|]. split; [reflexivity|].
    split; [exact Htex|]. split; [intros t; rewrite Htex; apply Hatt|].
    split; [split; [reflexivity | eauto]|].
    split; [|repeat split].
    intros gb [= <-]. cbn. split; [destruct h|]; reflexivity.
Qed.

Lemma NewCamera_shape_witness :
  NewCamera (quietEnv None) RenderPathDeferred true
    = Done (newCamera None RenderPathDeferred true)
  /\ (is_Some (gbuffer (newCamera None RenderPathDeferred true))
      <-> RenderPathDeferred = RenderPathDeferred).
Proof.
  split; [reflexivity|].
  destruct (NewCamera_shape (quietEnv None) RenderPathDeferred true
              (newCamera None RenderPathDeferred true) eq_refl)
    as (_ & _ & _ & _ & _ & _ & Hgb & _).
  exact Hgb.
Defined.

(** X17. [clearBackground], in every clear mode and with or without a
    skybox: the camera, the selected draw buffers and the depth flags
    are what they were; the context's clear colour is unchanged except
    in colour mode, which leaves it at opaque black; and only skybox
    mode with a skybox draws, once. So after [startRender] the draw
    buffer is still the one it selected by the HDR flag. *)
Theorem clearBackground_frame (w : World) :
  let w' := clearBackground w in
  cam w' = cam w
  /\ drawBuffers (gl w') = drawBuffers (gl w)
  /\ depthMask (gl w') = depthMask (gl w)
  /\ depthTest (gl w') = depthTest (gl w)
  /\ glClearColor (gl w') =
       (if decide (clearMode (cam w) = ClearModeColor)
        then (f32_0, f32_0, f32_0, f32_1) else glClearColor (gl w))
  /\ length (draws (gl w')) =
       (length (draws (gl w)) +
        (if decide (clearMode (cam w) = ClearModeSkybox)
         then (match skybox (cam w) with Some _ => 1 | None => 0 end)
         else 0))%nat
  /\ drawBuffers (gl (startRender w)) =
       (if hdr (cam w) then [COLOR_ATTACHMENT1] else [COLOR_ATTACHMENT0]).
Proof.
  destruct w as [c g].
  destruct c as [ts ss ms es dc fc fb gb pm vm cc cm rp n t h sky].
  destruct g as [bt db pr us gcc dm dt px ds cs].
  cbn zeta. unfold startRender, clearBackground.
  cbn [cam clearMode skybox hdr withGL].
  destruct cm, sky, h;
    repeat first [ rewrite decide_True by reflexivity
                 | rewrite decide_False by discriminate ];
    cbn; rewrite ?length_app; cbn;
    repeat split; try reflexivity; lia.
Qed.

End CameraFacts.

(** ** The registry of systems *)

Module AppFacts.
Import App.

Lemma registeredIn_names ss n : registeredIn ss n = true <-> n ∈ sysName <$> ss.
Proof.
  induction ss as [|s ss IH]; simpl.
  - split; [discriminate | intros H; inversion H].
  - rewrite elem_of_cons. destruct (decide (sysName s = n)) as [<-|Hne].
    + split; auto.
    + rewrite IH. split; [auto|]. intros [Heq | Hin]; [congruence | exact Hin].
Qed.

Lemma registeredIn_false ss n : registeredIn ss n = false <-> n ∉ sysName <$> ss.
Proof.
  rewrite <- registeredIn_names. destruct (registeredIn ss n); split;
    try discriminate; try reflexivity; intros H; exfalso; apply H; reflexivity.
Qed.

Lemma findIn_None ss n : findIn ss n = None <-> n ∉ sysName <$> ss.
Proof.
  induction ss as [|s ss IH]; simpl.
  - split; [intros _ H; inversion H | reflexivity].
  - rewrite not_elem_of_cons. destruct (decide (sysName s = n)) as [<-|Hne].
    + split; [discriminate | intros [H _]; congruence].
    + rewrite IH. split; [intros H; split; [congruence | exact H] | tauto].
Qed.

Lemma findIn_first ss n s :
  findIn ss n = Some s ->
  sysName s = n
  /\ exists i, ss !! i = Some s
       /\ forall j s', (j < i)%nat -> ss !! j = Some s' -> sysName s' <> n.
Proof.
  induction ss as [|x ss IH]; simpl; [discriminate|].
  destruct (decide (sysName x = n)) as [Hx|Hx].
  - intros [= <-]. split; [exact Hx|]. exists 0%nat. split; [reflexivity|].
    intros j s' Hj. lia.
  - intros Hf. destruct (IH Hf) as (Hn & i & Hi & Hfirst). split; [exact Hn|].
    exists (S i). split; [exact Hi|].
    intros [|j] s' Hj Hs'; simpl in Hs'.
    + injection Hs' as <-. exact Hx.
    + apply (Hfirst j s'); [lia | exact Hs'].
Qed.

Lemma findIn_app_new ss s :
  sysName s ∉ sysName <$> ss -> findIn (ss ++ [s]) (sysName s) = Some s.
Proof.
  induction ss as [|x ss IH]; simpl.
  - intros _. rewrite decide_True by reflexivity. reflexivity.
  - rewrite not_elem_of_cons. intros [Hne Hnin].
    rewrite decide_False by congruence. apply IH, Hnin.
Qed.

Lemma findIn_app_other ss s n :
  n <> sysName s -> findIn (ss ++ [s]) n = findIn ss n.
Proof.
  intros Hne. induction ss as [|x ss IH]; simpl.
  - rewrite decide_False by congruence. reflexivity.
  - destruct (decide (sysName x = n)); [reflexivity | exact IH].
Qed.

(** X18. Looking a system up by name: [System] returns the first
    registered system of that name, and [ErrSystemNotFound] exactly when
    no registered system has it; [SystemRegistered] says whether one
    has; [MustSystem] panics exactly when [System] fails. *)
Theorem GetSystem_finds_first (a : App) (n : string) :
  (forall s, GetSystem a n = inl s ->
     sysName s = n
     /\ exists i, systems a !! i = Some s
          /\ forall j s', (j < i)%nat -> systems a !! j = Some s' ->
                          sysName s' <> n)
  /\ (GetSystem a n = inr (ErrSystemNotFound n) <-> n ∉ names a)
  /\ (SystemRegistered a n = true <-> n ∈ names a)
  /\ (MustSystem a n = Panic (ErrSystemNotFound n) <-> n ∉ names a).
Proof.
  unfold GetSystem, MustSystem, GetSystem, SystemRegistered, names.
  split; [|split; [|split]].
  - intros s. destruct (findIn (systems a) n) as [x|] eqn:E; [|discriminate].
    intros [= <-]. apply findIn_first. exact E.
  - rewrite <- findIn_None. destruct (findIn (systems a) n); split;
      try discriminate; reflexivity.
  - apply registeredIn_names.
  - rewrite <- findIn_None. destruct (findIn (systems a) n); split;
      try discriminate; reflexivity.
Qed.

(** X19. When [RegisterSystem] returns, no system of that name was
    registered before, the new system is the last of the slice, looking
    its name up finds it ([MustSystem] does not panic), and every other
    name looks up as before. When it panics, the error is
    [ErrSystemExists] and a system of that name was registered. *)
Theorem RegisterSystem_then_lookup (s : System) (a : App) :
  match RegisterSystem s a with
  | Ok a' =>
      (sysName s ∉ names a)
      /\ systems a' = systems a ++ [s]
      /\ GetSystem a' (sysName s) = inl s
      /\ MustSystem a' (sysName s) = Ok s
      /\ forall n, n <> sysName s -> GetSystem a' n = GetSystem a n
  | Panic e => e = ErrSystemExists (sysName s) /\ sysName s ∈ names a
  end.
Proof.
  unfold RegisterSystem, SystemRegistered.
  destruct (registeredIn (systems a) (sysName s)) eqn:E.
  - split; [reflexivity|]. apply registeredIn_names. exact E.
  - apply registeredIn_false in E.
    unfold MustSystem, GetSystem, names. cbn [systems].
    rewrite (findIn_app_new _ _ E).
    split; [exact E|]. split; [reflexivity|]. split; [reflexivity|].
    split; [reflexivity|].
    intros n Hne. rewrite findIn_app_other by exact Hne. reflexivity.
Qed.

Lemma registerAll_from ss : forall a,
  NoDup (names a) ->
  match registerAll ss a with
  | Ok a' =>
      systems a' = systems a ++ ss /\ NoDup (names a')
      /\ preTeardownFunc a' = preTeardownFunc a
      /\ postTeardownFunc a' = postTeardownFunc a
      /\ running a' = running a
  | Panic e =>
      (~ NoDup (names a ++ (sysName <$> ss)))
      /\ exists n, e = ErrSystemExists n /\ n ∈ sysName <$> ss
  end.
Proof.
  induction ss as [|s ss IH]; intros a Hnd; simpl.
  - rewrite app_nil_r. auto.
  - unfold RegisterSystem, SystemRegistered.
    destruct (registeredIn (systems a) (sysName s)) eqn:E.
    + apply registeredIn_names in E. split.
      * intros Hno. apply NoDup_app in Hno. destruct Hno as (_ & Hdisj & _).
        apply (Hdisj (sysName s)); [exact E | left].
      * exists (sysName s). split; [reflexivity | left].
    + apply registeredIn_false in E.
      set (a1 := {| preTeardownFunc := preTeardownFunc a;
                    postTeardownFunc := postTeardownFunc a;
                    systems := systems a ++ [s]; running := running a |}).
      assert (Hn1 : names a1 = names a ++ [sysName s]).
      { unfold names, a1. cbn [systems]. rewrite fmap_app. reflexivity. }
      assert (Hnd1 : NoDup (names a1)).
      { rewrite Hn1. apply NoDup_app. split; [exact Hnd|]. split.
        - intros x Hx Hin. apply list_elem_of_singleton in Hin. subst x.
          contradiction.
        - apply NoDup_singleton. }
      specialize (IH a1 Hnd1). destruct (registerAll ss a1) as [a'|e].
      * destruct IH as (Hs & Hnd' & Hpre & Hpost & Hrun).
        split; [rewrite Hs; unfold a1; cbn [systems]; rewrite <- app_assoc; reflexivity|].
        split; [exact Hnd'|]. auto.
      * destruct IH as (Hno & n & -> & Hin). split.
        -- rewrite Hn1, <- app_assoc in Hno. exact Hno.
        -- exists n. split; [reflexivity | right; exact Hin].
Qed.

(** X20. Registering a list of systems on a new app succeeds exactly
    when their names are pairwise distinct; the app then holds the
    systems in the order given. Otherwise [RegisterSystem] panics with
    [ErrSystemExists] for a name of the list. *)
Theorem registerAll_unique_names (ss : list System) :
  match registerAll ss NewApp with
  | Ok a => systems a = ss /\ NoDup (sysName <$> ss) /\ NoDup (names a)
  | Panic e =>
      (~ NoDup (sysName <$> ss))
      /\ exists n, e = ErrSystemExists n /\ n ∈ sysName <$> ss
  end.
Proof.
  pose proof (registerAll_from ss NewApp) as H.
  assert (Hnd : NoDup (names NewApp)) by constructor.
  specialize (H Hnd). destruct (registerAll ss NewApp) as [a|e].
  - destruct H as (Hs & Hnd' & _). cbn [systems NewApp app] in Hs.
    split; [exact Hs|]. split; [|exact Hnd'].
    unfold names in Hnd'. rewrite Hs in Hnd'. exact Hnd'.
  - exact H.
Qed.

Lemma teardownFrom_prefix l k n :
  (n <= length l)%nat -> teardownFrom (l ++ k) n = teardownFrom l n.
Proof.
  induction n as [|n IH]; intros Hn; [reflexivity|].
  simpl. rewrite lookup_app_l by lia.
  destruct (l !! n); [|reflexivity]. rewrite IH by lia. reflexivity.
Qed.

Lemma teardownFrom_reverse l :
  teardownFrom l (length l) = SystemTeardown <$> reverse l.
Proof.
  induction l as [|x l IH] using rev_ind; [reflexivity|].
  rewrite length_app. simpl length. rewrite Nat.add_1_r. simpl.
  rewrite list_lookup_middle by reflexivity.
  rewrite teardownFrom_prefix by lia.
  rewrite IH, reverse_snoc. reflexivity.
Qed.

(** X21. [Teardown] tears the systems down in the reverse of the order
    in which they were registered, each of them once, after the
    pre-teardown callback and before the post-teardown callback where
    these are set. *)
Theorem Teardown_reverse_order (a : App) :
  Teardown a =
    (if preTeardownFunc a then [PreTeardown] else [])
    ++ (SystemTeardown <$> reverse (systems a))
    ++ (if postTeardownFunc a then [PostTeardown] else []).
Proof. unfold Teardown. rewrite teardownFrom_reverse. reflexivity. Qed.

End AppFacts.
